(** * SQL schema parser (src/main.py): a shallow embedding and its properties

    The three core functions of the program, [extract_tables_and_ddl],
    [parse_constraints] and [to_serializable], are embedded below together
    with the part of Python's [re] and [str] libraries they rely on.

    Modelling choices.
    - A Python [str] is a [string]: a sequence of characters with code points
      below 256.  On that range [\s] and [str.strip()] recognise the code
      points 9-13, 28-32, 133 and 160, and [re.IGNORECASE] identifies exactly
      the ASCII letters [A-Z] with [a-z].
    - [re] is a backtracking matcher; it is embedded as a matcher in
      continuation-passing style, the continuation standing for the rest of
      the pattern.  Returning [None] from the continuation is backtracking.
    - The registry [Dict[str, Dict[str, Any]]] is a [gmap string TableRecord];
      the [dependencies] entry (a Python [set]) is a [gset string].
    - [parse_constraints] mutates the registry it is given and returns
      [None]; the embedding returns the pair of that result and the registry
      after the call. *)

From Stdlib Require Import Ascii NArith.
From Stdlib Require String.
From stdpp Require Import gmap strings list sorting fin_maps.

(** * Part I: definitions *)

(** ** Characters and the [str] methods used by the program *)

Definition dquote : ascii := "034"%char.
Definition newline : ascii := "010"%char.

Definition code (c : ascii) : N := N_of_ascii c.

(** [str.isspace] on one character, which is also the class [\s]. *)
Definition isspace (c : ascii) : bool :=
  let n := code c in
  ((9 <=? n) && (n <=? 13) || (28 <=? n) && (n <=? 32)
   || (n =? 133) || (n =? 160))%N.

(** Case folding used by [re.IGNORECASE] for a literal of the pattern. *)
Definition lower (c : ascii) : ascii :=
  let n := code c in
  if ((65 <=? n) && (n <=? 90))%N then ascii_of_N (n + 32) else c.

Definition same_letter (a b : ascii) : bool := Ascii.eqb (lower a) (lower b).

Fixpoint lstrip (p : ascii → bool) (s : string) : string :=
  match s with
  | EmptyString => EmptyString
  | String a s' => if p a then lstrip p s' else s
  end.

Fixpoint rstrip (p : ascii → bool) (s : string) : string :=
  match s with
  | EmptyString => EmptyString
  | String a s' =>
      match rstrip p s' with
      | EmptyString => if p a then EmptyString else String a EmptyString
      | t => String a t
      end
  end.

Definition strip_with (p : ascii → bool) (s : string) : string :=
  rstrip p (lstrip p s).

(** [s.strip()] *)
Definition strip (s : string) : string := strip_with isspace s.

(** [s.strip(chars)] *)
Definition strip_chars (chars : string) (s : string) : string :=
  strip_with (λ a, existsb (Ascii.eqb a) (String.list_ascii_of_string chars)) s.

(** [s.split(sep)] for a one-character separator: never an empty list. *)
Fixpoint split (sep : ascii) (s : string) : list string :=
  match s with
  | EmptyString => [EmptyString]
  | String a s' =>
      if Ascii.eqb a sep then EmptyString :: split sep s'
      else match split sep s' with
           | w :: ws => String a w :: ws
           | [] => [String a EmptyString]
           end
  end.

(** [sep.join(l)] *)
Definition join (sep : string) (l : list string) : string :=
  String.concat sep l.

(** ** Regular expressions: the part of [re] used by the program *)

Module Re.

(** The character classes that occur in the program's patterns. *)
Inductive charset : Type :=
| Space                 (* \s *)
| AnyChar               (* [\s\S] *)
| NotChar (c : ascii).  (* [^c] *)

Definition in_charset (cs : charset) (a : ascii) : bool :=
  match cs with
  | Space => isspace a
  | AnyChar => isspace a || negb (isspace a)
  | NotChar c => negb (Ascii.eqb a c)
  end.

(** Patterns compiled with [re.IGNORECASE].  Repetition is applied to
    character classes only, as in every pattern of the program:
    [MaxRepeat 1 cs] is [cs+], [MaxRepeat 0 cs] is [cs*] and
    [MinRepeat 0 cs] is [cs*?]. *)
Inductive regex : Type :=
| Lit (l : string)
| MaxRepeat (min : nat) (cs : charset)
| MinRepeat (min : nat) (cs : charset)
| Group (name : string) (r : regex)
| Seq (r1 r2 : regex).

(** A match object: the text of the whole match and of each group. *)
Record Match : Type := mkMatch {
  whole : string;
  groups : list (string * string);
}.

Fixpoint assoc (name : string) (l : list (string * string)) : option string :=
  match l with
  | [] => None
  | (n, v) :: l' => if String.eqb n name then Some v else assoc name l'
  end.

(** [m.group(name)].  Every group the program asks for is a mandatory part
    of its pattern and is set in every match (lemmas
    [statement_pattern_shape], [primary_key_pattern_shape] and
    [foreign_key_pattern_shape]), so that the default is never used. *)
Definition group (name : string) (m : Match) : string :=
  default EmptyString (assoc name (groups m)).

(** The text consumed between the input [s] and its suffix [rest]. *)
Definition consumed (s rest : string) : string :=
  String.substring 0 (String.length s - String.length rest) s.

Section Exec.
Context {R : Type}.

(** Case-insensitive literal: the rest of the input after the literal. *)
Fixpoint lit (l s : string) : option string :=
  match l with
  | EmptyString => Some s
  | String c l' =>
      match s with
      | String a s' => if same_letter c a then lit l' s' else None
      | EmptyString => None
      end
  end.

Definition stop (min : nat) (k : string → option R) (s : string) : option R :=
  match min with
  | O => k s
  | S _ => None
  end.

(** Greedy repetition: take one more character if possible, give it
    back when the rest of the pattern fails. *)
Fixpoint max_repeat (p : ascii → bool) (min : nat) (s : string)
    (k : string → option R) : option R :=
  match s with
  | String a s' =>
      if p a then
        match max_repeat p (pred min) s' k with
        | Some r => Some r
        | None => stop min k s
        end
      else stop min k s
  | EmptyString => stop min k s
  end.

(** Lazy repetition: try the rest of the pattern first, take one more
    character only when it fails. *)
Fixpoint min_repeat (p : ascii → bool) (min : nat) (s : string)
    (k : string → option R) : option R :=
  match stop min k s with
  | Some r => Some r
  | None =>
      match s with
      | String a s' => if p a then min_repeat p (pred min) s' k else None
      | EmptyString => None
      end
  end.

Fixpoint exec (r : regex) (s : string) (caps : list (string * string))
    (k : string → list (string * string) → option R) : option R :=
  match r with
  | Lit l =>
      match lit l s with
      | Some s' => k s' caps
      | None => None
      end
  | MaxRepeat min cs => max_repeat (in_charset cs) min s (λ s', k s' caps)
  | MinRepeat min cs => min_repeat (in_charset cs) min s (λ s', k s' caps)
  | Group name r' =>
      exec r' s caps (λ s' caps', k s' ((name, consumed s s') :: caps'))
  | Seq r1 r2 =>
      exec r1 s caps (λ s' caps', exec r2 s' caps' k)
  end.
End Exec.

(** [pattern.match(s)]: a match that starts at the first character. *)
Definition match_ (r : regex) (s : string) : option Match :=
  exec r s [] (λ s' caps, Some (mkMatch (consumed s s') caps)).

(** [pattern.finditer(s)]: the non-overlapping matches from left to right,
    the search resuming where the previous match ended.  [skip] counts the
    characters still covered by the previous match.  No match of the
    program's patterns is empty (lemma [finditer_nonempty]). *)
Fixpoint finditer_from (r : regex) (skip : nat) (s : string) {struct s}
    : list Match :=
  match s with
  | EmptyString =>
      match skip, match_ r EmptyString with
      | O, Some m => [m]
      | _, _ => []
      end
  | String _ s' =>
      match skip with
      | S n => finditer_from r n s'
      | O =>
          match match_ r s with
          | Some m => m :: finditer_from r (pred (String.length (whole m))) s'
          | None => finditer_from r 0 s'
          end
      end
  end.

Definition finditer (r : regex) (s : string) : list Match :=
  finditer_from r 0 s.

End Re.

Infix "⋅" := Re.Seq (at level 60, right associativity).

(** ** The patterns of the program *)

Definition quote_lit : Re.regex := Re.Lit (String dquote EmptyString).

(** [[^Q]+]; in the comments of this file Q stands for the double-quote
    character. *)
Definition ident_chars : Re.regex := Re.MaxRepeat 1 (Re.NotChar dquote).

(** [[^\)]+] *)
Definition column_chars : Re.regex := Re.MaxRepeat 1 (Re.NotChar ")").

(** [(CREATE TABLE\s+Q(?P<schema>[^Q]+)Q\.Q(?P<table>[^Q]+)Q[\s\S]*?;)] *)
Definition create_pattern : Re.regex :=
  Re.Group "1"
    (Re.Lit "CREATE TABLE" ⋅ Re.MaxRepeat 1 Re.Space
     ⋅ quote_lit ⋅ Re.Group "schema" ident_chars ⋅ quote_lit
     ⋅ Re.Lit "."
     ⋅ quote_lit ⋅ Re.Group "table" ident_chars ⋅ quote_lit
     ⋅ Re.MinRepeat 0 Re.AnyChar ⋅ Re.Lit ";").

(** [(ALTER TABLE\s+Q(?P<schema>[^Q]+)Q\.Q(?P<table>[^Q]+)Q[\s\S]*?;)] *)
Definition alter_pattern : Re.regex :=
  Re.Group "1"
    (Re.Lit "ALTER TABLE" ⋅ Re.MaxRepeat 1 Re.Space
     ⋅ quote_lit ⋅ Re.Group "schema" ident_chars ⋅ quote_lit
     ⋅ Re.Lit "."
     ⋅ quote_lit ⋅ Re.Group "table" ident_chars ⋅ quote_lit
     ⋅ Re.MinRepeat 0 Re.AnyChar ⋅ Re.Lit ";").

(** [PRIMARY\s+KEY\s*\((?P<cols>[^\)]+)\)] *)
Definition primary_key_pattern : Re.regex :=
  Re.Lit "PRIMARY" ⋅ Re.MaxRepeat 1 Re.Space ⋅ Re.Lit "KEY"
  ⋅ Re.MaxRepeat 0 Re.Space
  ⋅ Re.Lit "(" ⋅ Re.Group "cols" column_chars ⋅ Re.Lit ")".

(** [FOREIGN\s+KEY\s*\((?P<local>[^\)]+)\)[\s\S]*?REFERENCES\s+
     Q(?P<ref_schema>[^Q]+)Q\.Q(?P<ref_table>[^Q]+)Q\s*\((?P<ref_cols>[^\)]+)\)] *)
Definition foreign_key_pattern : Re.regex :=
  Re.Lit "FOREIGN" ⋅ Re.MaxRepeat 1 Re.Space ⋅ Re.Lit "KEY"
  ⋅ Re.MaxRepeat 0 Re.Space
  ⋅ Re.Lit "(" ⋅ Re.Group "local" column_chars ⋅ Re.Lit ")"
  ⋅ Re.MinRepeat 0 Re.AnyChar
  ⋅ Re.Lit "REFERENCES" ⋅ Re.MaxRepeat 1 Re.Space
  ⋅ quote_lit ⋅ Re.Group "ref_schema" ident_chars ⋅ quote_lit
  ⋅ Re.Lit "."
  ⋅ quote_lit ⋅ Re.Group "ref_table" ident_chars ⋅ quote_lit
  ⋅ Re.MaxRepeat 0 Re.Space
  ⋅ Re.Lit "(" ⋅ Re.Group "ref_cols" column_chars ⋅ Re.Lit ")".

(** ** Data model *)

(** An entry of [foreign_keys]: the dict [{'column': _, 'references': _}]. *)
Record ForeignKeyRecord : Type := mkForeignKey {
  column : string;
  references : string;
}.

(** A value of the registry: the dict built by [extract_tables_and_ddl]. *)
Record TableRecord : Type := mkTable {
  name : string;
  schema_name : string;
  schema_stmt : string;
  constraints_raw : list string;
  primary_keys : list string;
  foreign_keys : list ForeignKeyRecord;
  dependencies : gset string;
}.

Module Out.
(** An element of the list returned by [to_serializable]. *)
Record t : Type := mk {
  name : string;
  primary_keys : list string;
  foreign_keys : list ForeignKeyRecord;
  schema : string;
  constraints : string;
  dependencies : list string;
}.
End Out.

(** ** [extract_tables_and_ddl] *)

Definition new_table (table schema full_stmt : string) : TableRecord :=
  {| name := table;
     schema_name := schema;
     schema_stmt := full_stmt;
     constraints_raw := [];
     primary_keys := [];
     foreign_keys := [];
     dependencies := ∅ |}.

(** The body of the loop over the [CREATE TABLE] matches. *)
Definition create_step (tables : gmap string TableRecord) (m : Re.Match)
    : gmap string TableRecord :=
  let full_stmt := Re.group "1" m in
  let schema := Re.group "schema" m in
  let table := Re.group "table" m in
  <[table := new_table table schema full_stmt]> tables.

Definition extract_tables_and_ddl (sql_text : string) : gmap string TableRecord :=
  fold_left create_step (Re.finditer create_pattern sql_text) ∅.

(** ** [parse_constraints] *)

(** [c.strip().strip('Q')] *)
Definition strip_column (c : string) : string :=
  strip_chars (String dquote EmptyString) (strip c).

(** [[c.strip().strip('Q') for c in text.split(',')]] *)
Definition column_list (text : string) : list string :=
  strip_column <$> split "," text.

(** In-place updates of one entry of a record. *)
Definition set_constraints_raw (v : list string) (item : TableRecord) : TableRecord :=
  {| name := name item;
     schema_name := schema_name item;
     schema_stmt := schema_stmt item;
     constraints_raw := v;
     primary_keys := primary_keys item;
     foreign_keys := foreign_keys item;
     dependencies := dependencies item |}.

Definition set_primary_keys (v : list string) (item : TableRecord) : TableRecord :=
  {| name := name item;
     schema_name := schema_name item;
     schema_stmt := schema_stmt item;
     constraints_raw := constraints_raw item;
     primary_keys := v;
     foreign_keys := foreign_keys item;
     dependencies := dependencies item |}.

Definition set_foreign_keys (v : list ForeignKeyRecord) (item : TableRecord)
    : TableRecord :=
  {| name := name item;
     schema_name := schema_name item;
     schema_stmt := schema_stmt item;
     constraints_raw := constraints_raw item;
     primary_keys := primary_keys item;
     foreign_keys := v;
     dependencies := dependencies item |}.

Definition set_dependencies (v : gset string) (item : TableRecord) : TableRecord :=
  {| name := name item;
     schema_name := schema_name item;
     schema_stmt := schema_stmt item;
     constraints_raw := constraints_raw item;
     primary_keys := primary_keys item;
     foreign_keys := foreign_keys item;
     dependencies := v |}.

(** [item['constraints_raw'].append(stmt)] *)
Definition append_constraint (stmt : string) (item : TableRecord) : TableRecord :=
  set_constraints_raw (constraints_raw item ++ [stmt]) item.

(** [if c and c not in item['primary_keys']: item['primary_keys'].append(c)] *)
Definition add_primary_key (item : TableRecord) (c : string) : TableRecord :=
  if decide (c ≠ EmptyString ∧ c ∉ primary_keys item)
  then set_primary_keys (primary_keys item ++ [c]) item
  else item.

(** The body of the loop over the [PRIMARY KEY] matches of a statement. *)
Definition primary_key_step (item : TableRecord) (pm : Re.Match) : TableRecord :=
  let cols := column_list (Re.group "cols" pm) in
  fold_left add_primary_key cols item.

(** The body of the loop over the [FOREIGN KEY] matches of a statement. *)
Definition foreign_key_step (item : TableRecord) (fkm : Re.Match) : TableRecord :=
  let local_cols := join ", " (column_list (Re.group "local" fkm)) in
  let ref_table := Re.group "ref_table" fkm in
  let ref_cols := join ", " (column_list (Re.group "ref_cols" fkm)) in
  let item :=
    set_foreign_keys
      (foreign_keys item
       ++ [ {| column := local_cols;
               references := ref_table +:+ "(" +:+ ref_cols +:+ ")" |} ])
      item in
  set_dependencies (dependencies item ∪ {[ ref_table ]}) item.

(** What one matched [ALTER TABLE] statement does to the record of its
    table. *)
Definition apply_statement (stmt : string) (item : TableRecord) : TableRecord :=
  let item := append_constraint stmt item in
  let item := fold_left primary_key_step
                (Re.finditer primary_key_pattern stmt) item in
  fold_left foreign_key_step (Re.finditer foreign_key_pattern stmt) item.

(** The body of the loop over the [ALTER TABLE] matches. *)
Definition alter_step (tables : gmap string TableRecord) (m : Re.Match)
    : gmap string TableRecord :=
  let stmt := Re.group "1" m in
  let table := Re.group "table" m in
  match tables !! table with
  | None => tables                                          (* continue *)
  | Some item => <[table := apply_statement stmt item]> tables
  end.

(** The result is the pair of the value returned ([None]) and the registry
    after the in-place updates. *)
Definition parse_constraints (sql_text : string) (tables : gmap string TableRecord)
    : unit * gmap string TableRecord :=
  (tt, fold_left alter_step (Re.finditer alter_pattern sql_text) tables).

(** ** [to_serializable] *)

(** [sorted(l)] on strings: ascending code-point order. *)
Definition sorted (l : list string) : list string := merge_sort String.le l.

(** [items.keys()] *)
Definition keys (items : gmap string TableRecord) : list string :=
  (map_to_list items).*1.

Definition constraints_joined (item : TableRecord) : string :=
  match constraints_raw item with
  | [] => EmptyString
  | _ => join (String newline "  ") (strip <$> constraints_raw item)
  end.

Definition serialize_item (item : TableRecord) : Out.t :=
  {| Out.name := name item;
     Out.primary_keys := primary_keys item;
     Out.foreign_keys := foreign_keys item;
     Out.schema := schema_stmt item;
     Out.constraints := constraints_joined item;
     Out.dependencies := sorted (elements (dependencies item)) |}.

Definition to_serializable (items : gmap string TableRecord) : list Out.t :=
  omap (λ table_name, serialize_item <$> items !! table_name)
       (sorted (keys items)).

(** The sequence of calls made by both routes of the API. *)
Definition parse_sql (sql_text : string) : list Out.t :=
  let tables := extract_tables_and_ddl sql_text in
  let '(_, tables) := parse_constraints sql_text tables in
  to_serializable tables.

(** ** Notions used to state the properties *)

Definition str_lt (a b : string) : Prop := String.ltb a b = true.

(** The registry invariant of the data model: a record is stored under its
    own name. *)
Definition keyed (items : gmap string TableRecord) : Prop :=
  ∀ k item, items !! k = Some item → name item = k.

(** The record built from a [CREATE TABLE] match. *)
Definition created (m : Re.Match) : TableRecord :=
  new_table (Re.group "table" m) (Re.group "schema" m) (Re.group "1" m).

(** The statements of a list of [ALTER TABLE] matches that name [t]. *)
Definition statements_for (t : string) (ms : list Re.Match) : list string :=
  Re.group "1" <$> filter (λ m, Re.group "table" m = t) ms.

Definition apply_statements (stmts : list string) (item : TableRecord)
    : TableRecord :=
  fold_left (λ it stmt, apply_statement stmt it) stmts item.

(** The columns named by the [PRIMARY KEY] clauses of a statement, and its
    [FOREIGN KEY] clauses, in the order of the text. *)
Definition primary_key_tokens (stmt : string) : list string :=
  Re.finditer primary_key_pattern stmt
  ≫= (λ pm, column_list (Re.group "cols" pm)).

Definition foreign_key_clauses (stmt : string) : list Re.Match :=
  Re.finditer foreign_key_pattern stmt.

(** What [add_primary_key] does to the list of key columns. *)
Definition add_key (pks : list string) (c : string) : list string :=
  if decide (c ≠ EmptyString ∧ c ∉ pks) then pks ++ [c] else pks.

(** The record appended for one [FOREIGN KEY] clause. *)
Definition foreign_key_of (fkm : Re.Match) : ForeignKeyRecord :=
  {| column := join ", " (column_list (Re.group "local" fkm));
     references :=
       Re.group "ref_table" fkm +:+ "(" +:+
       join ", " (column_list (Re.group "ref_cols" fkm)) +:+ ")" |}.

(** Follows the specification's words: the list without its repetitions,
    every element staying where it first occurs. *)
Fixpoint first_occurrences (l : list string) : list string :=
  match l with
  | [] => []
  | x :: l' => x :: filter (λ y, y ≠ x) (first_occurrences l')
  end.



(** *** What a match looks like *)

Fixpoint all_chars (p : ascii → bool) (s : string) : bool :=
  match s with
  | EmptyString => true
  | String a s' => p a && all_chars p s'
  end.

(** [t] is the literal [l] up to the case of its letters. *)
Fixpoint lit_eq (l t : string) : bool :=
  match l, t with
  | EmptyString, EmptyString => true
  | String c l', String a t' => same_letter c a && lit_eq l' t'
  | _, _ => false
  end.

(** [matches r t b]: the text [t] has the shape of the pattern [r], and [b]
    lists the groups of [r] with the text each one spans, innermost and
    rightmost first. *)
Inductive matches : Re.regex → string → list (string * string) → Prop :=
| matches_lit l t :
    lit_eq l t = true → matches (Re.Lit l) t []
| matches_max min cs t :
    all_chars (Re.in_charset cs) t = true → min ≤ String.length t →
    matches (Re.MaxRepeat min cs) t []
| matches_min min cs t :
    all_chars (Re.in_charset cs) t = true → min ≤ String.length t →
    matches (Re.MinRepeat min cs) t []
| matches_group name r t b :
    matches r t b → matches (Re.Group name r) t ((name, t) :: b)
| matches_seq r1 r2 t1 t2 b1 b2 :
    matches r1 t1 b1 → matches r2 t2 b2 →
    matches (Re.Seq r1 r2) (t1 +:+ t2) (b2 ++ b1).

(** The least number of characters a match of the pattern spans. *)
Fixpoint min_length (r : Re.regex) : nat :=
  match r with
  | Re.Lit l => String.length l
  | Re.MaxRepeat min _ => min
  | Re.MinRepeat min _ => min
  | Re.Group _ r' => min_length r'
  | Re.Seq r1 r2 => min_length r1 + min_length r2
  end.

Definition is_letter (c : ascii) : bool :=
  let n := code c in
  ((65 <=? n) && (n <=? 90) || (97 <=? n) && (n <=? 122))%N.

Definition quote : string := String dquote EmptyString.

(** A [CREATE TABLE] or [ALTER TABLE] match: the keywords in any case,
    whitespace, the quoted schema, a dot, the quoted table, and any text up
    to a semicolon.  Group 1 is the whole statement. *)
Definition statement_shape (keywords : string) (m : Re.Match) : Prop :=
  ∃ kw ws schema table body,
    Re.whole m
    = kw +:+ ws +:+ quote +:+ schema +:+ quote +:+ "." +:+ quote +:+ table
      +:+ quote +:+ body +:+ ";"
    ∧ lit_eq keywords kw = true
    ∧ all_chars isspace ws = true ∧ 1 ≤ String.length ws
    ∧ all_chars (Re.in_charset (Re.NotChar dquote)) schema = true
    ∧ 1 ≤ String.length schema
    ∧ all_chars (Re.in_charset (Re.NotChar dquote)) table = true
    ∧ 1 ≤ String.length table
    ∧ Re.group "1" m = Re.whole m
    ∧ Re.group "schema" m = schema
    ∧ Re.group "table" m = table.

(** A [PRIMARY KEY] match. *)
Definition primary_key_shape (m : Re.Match) : Prop :=
  ∃ kw1 ws1 kw2 ws2 cols,
    Re.whole m = kw1 +:+ ws1 +:+ kw2 +:+ ws2 +:+ "(" +:+ cols +:+ ")"
    ∧ lit_eq "PRIMARY" kw1 = true ∧ lit_eq "KEY" kw2 = true
    ∧ all_chars isspace ws1 = true ∧ 1 ≤ String.length ws1
    ∧ all_chars isspace ws2 = true
    ∧ all_chars (Re.in_charset (Re.NotChar ")")) cols = true
    ∧ 1 ≤ String.length cols
    ∧ Re.group "cols" m = cols.

(** A [FOREIGN KEY] match. *)
Definition foreign_key_shape (m : Re.Match) : Prop :=
  ∃ kw1 ws1 kw2 ws2 local gap kw3 ws3 ref_schema ref_table ws4 ref_cols,
    Re.whole m
    = kw1 +:+ ws1 +:+ kw2 +:+ ws2 +:+ "(" +:+ local +:+ ")" +:+ gap
      +:+ kw3 +:+ ws3 +:+ quote +:+ ref_schema +:+ quote +:+ "."
      +:+ quote +:+ ref_table +:+ quote +:+ ws4 +:+ "(" +:+ ref_cols +:+ ")"
    ∧ lit_eq "FOREIGN" kw1 = true ∧ lit_eq "KEY" kw2 = true
    ∧ lit_eq "REFERENCES" kw3 = true
    ∧ all_chars isspace ws1 = true ∧ 1 ≤ String.length ws1
    ∧ all_chars isspace ws2 = true
    ∧ all_chars isspace ws3 = true ∧ 1 ≤ String.length ws3
    ∧ all_chars isspace ws4 = true
    ∧ all_chars (Re.in_charset (Re.NotChar ")")) local = true
    ∧ 1 ≤ String.length local
    ∧ all_chars (Re.in_charset (Re.NotChar dquote)) ref_schema = true
    ∧ 1 ≤ String.length ref_schema
    ∧ all_chars (Re.in_charset (Re.NotChar dquote)) ref_table = true
    ∧ 1 ≤ String.length ref_table
    ∧ all_chars (Re.in_charset (Re.NotChar ")")) ref_cols = true
    ∧ 1 ≤ String.length ref_cols
    ∧ Re.group "local" m = local
    ∧ Re.group "ref_schema" m = ref_schema
    ∧ Re.group "ref_table" m = ref_table
    ∧ Re.group "ref_cols" m = ref_cols.

(** ** Example inputs *)

Definition q (s : string) : string :=
  String dquote s +:+ String dquote EmptyString.

Definition nl : string := String newline EmptyString.

Definition example_create_users : string :=
  "CREATE TABLE " +:+ q "public" +:+ "." +:+ q "users" +:+ " (id int);".

Definition example_create_orders : string :=
  "CREATE TABLE " +:+ q "public" +:+ "." +:+ q "orders"
  +:+ " (id int, user_id int);".

Definition example_alter_pk : string :=
  "ALTER TABLE " +:+ q "public" +:+ "." +:+ q "orders"
  +:+ " ADD CONSTRAINT pk PRIMARY KEY (" +:+ q "id" +:+ ");".

Definition example_alter_fk : string :=
  "ALTER TABLE " +:+ q "public" +:+ "." +:+ q "orders"
  +:+ " ADD CONSTRAINT fk FOREIGN KEY (" +:+ q "user_id" +:+ ") REFERENCES "
  +:+ q "public" +:+ "." +:+ q "users" +:+ " (" +:+ q "id" +:+ ");".

(** The four-statement scenario, one statement per line. *)
Definition example_sql : string :=
  join nl [example_create_users; example_create_orders;
           example_alter_pk; example_alter_fk].

(** An [ALTER TABLE] for a table that is never created. *)
Definition ghost_sql : string :=
  "ALTER TABLE " +:+ q "s" +:+ "." +:+ q "ghost"
  +:+ " ADD PRIMARY KEY (" +:+ q "id" +:+ ");".

(** A text in which the table [t] is created twice, in two schemas. *)
Definition duplicate_sql : string :=
  "CREATE TABLE " +:+ q "a" +:+ "." +:+ q "t" +:+ " (x int);" +:+ nl
  +:+ "CREATE TABLE " +:+ q "b" +:+ "." +:+ q "t" +:+ " (y text);".

(** Two [PRIMARY KEY] clauses with overlapping columns, in two statements;
    the second has blanks around its tokens and an empty token. *)
Definition overlap_sql : string :=
  "CREATE TABLE " +:+ q "s" +:+ "." +:+ q "t" +:+ " (a int, b int, c int);"
  +:+ nl
  +:+ "ALTER TABLE " +:+ q "s" +:+ "." +:+ q "t"
  +:+ " ADD PRIMARY KEY (" +:+ q "a" +:+ ", " +:+ q "b" +:+ ");" +:+ nl
  +:+ "alter table " +:+ q "s" +:+ "." +:+ q "t"
  +:+ " add constraint k primary  key ( " +:+ q "b" +:+ " , " +:+ q "c"
  +:+ ",, " +:+ q "a" +:+ " );".

(** One statement with the same two-column [FOREIGN KEY] clause twice. *)
Definition repeated_fk_sql : string :=
  "CREATE TABLE " +:+ q "s" +:+ "." +:+ q "t" +:+ " (a int, b int);" +:+ nl
  +:+ "ALTER TABLE " +:+ q "s" +:+ "." +:+ q "t"
  +:+ " ADD FOREIGN KEY (" +:+ q "a" +:+ ", " +:+ q "b" +:+ ") REFERENCES "
  +:+ q "x" +:+ "." +:+ q "u" +:+ " (" +:+ q "c" +:+ "," +:+ q "d" +:+ "),"
  +:+ " ADD FOREIGN KEY (" +:+ q "a" +:+ ", " +:+ q "b" +:+ ") REFERENCES "
  +:+ q "x" +:+ "." +:+ q "u" +:+ " (" +:+ q "c" +:+ "," +:+ q "d" +:+ ");".



(** ** Notions used to state further properties *)

Definition head_char (s : string) : option ascii :=
  match s with
  | EmptyString => None
  | String a _ => Some a
  end.

Fixpoint last_char (s : string) : option ascii :=
  match s with
  | EmptyString => None
  | String a s' =>
      match last_char s' with
      | Some b => Some b
      | None => Some a
      end
  end.

(** [scanned r s ms]: the text [s] is cut into gaps and matches, [ms] being
    the matches in text order; each match is the one the pattern gives at its
    position, and the pattern matches at no position of a gap nor after the
    last match. *)
Inductive scanned (r : Re.regex) : string → list Re.Match → Prop :=
| scanned_end s :
    (∀ s1 s2, s = s1 +:+ s2 → Re.match_ r s2 = None) →
    scanned r s []
| scanned_match gap m rest ms :
    (∀ g1 g2, gap = g1 +:+ g2 → g2 ≠ EmptyString →
              Re.match_ r (g2 +:+ Re.whole m +:+ rest) = None) →
    Re.match_ r (Re.whole m +:+ rest) = Some m →
    scanned r rest ms →
    scanned r (gap +:+ Re.whole m +:+ rest) (m :: ms).

(** The pattern shared by [create_pattern] and [alter_pattern]. *)
Definition statement_pattern (keywords : string) : Re.regex :=
  Re.Group "1"
    (Re.Lit keywords ⋅ Re.MaxRepeat 1 Re.Space
     ⋅ quote_lit ⋅ Re.Group "schema" ident_chars ⋅ quote_lit
     ⋅ Re.Lit "."
     ⋅ quote_lit ⋅ Re.Group "table" ident_chars ⋅ quote_lit
     ⋅ Re.MinRepeat 0 Re.AnyChar ⋅ Re.Lit ";").

(** The text of a statement, from its parts. *)
Definition statement_text (kw ws schema table body : string) : string :=
  kw +:+ ws +:+ quote +:+ schema +:+ quote +:+ "." +:+ quote +:+ table
  +:+ quote +:+ body +:+ ";".

(** The parts of a statement: the keywords in any case, at least one
    whitespace character, a schema and a table that are not empty and hold no
    double quote, and a body without semicolon. *)
Definition statement_parts (keywords kw ws schema table body : string) : Prop :=
  lit_eq keywords kw = true
  ∧ all_chars isspace ws = true ∧ 1 ≤ String.length ws
  ∧ all_chars (Re.in_charset (Re.NotChar dquote)) schema = true
  ∧ 1 ≤ String.length schema
  ∧ all_chars (Re.in_charset (Re.NotChar dquote)) table = true
  ∧ 1 ≤ String.length table
  ∧ all_chars (Re.in_charset (Re.NotChar ";")) body = true.

(** The match object of a statement. *)
Definition statement_match (kw ws schema table body : string) : Re.Match :=
  {| Re.whole := statement_text kw ws schema table body;
     Re.groups := [("1", statement_text kw ws schema table body);
                   ("table", table); ("schema", schema)] |}.

(** A statement given by its parts, and scripts with one statement per
    line. *)
Record Statement : Type := mkStatement {
  st_kw : string;
  st_ws : string;
  st_schema : string;
  st_table : string;
  st_body : string;
}.

Definition render (d : Statement) : string :=
  statement_text (st_kw d) (st_ws d) (st_schema d) (st_table d) (st_body d).

Definition well_formed (keywords : string) (d : Statement) : Prop :=
  statement_parts keywords
    (st_kw d) (st_ws d) (st_schema d) (st_table d) (st_body d).

Definition match_of (d : Statement) : Re.Match :=
  statement_match (st_kw d) (st_ws d) (st_schema d) (st_table d) (st_body d).

Definition script (ds : list Statement) : string := join nl (render <$> ds).

(** A registry whose table [t] already has the primary key [b]. *)
Definition preset_registry : gmap string TableRecord :=
  {[ "t" := set_primary_keys ["b"] (new_table "t" "s" EmptyString) ]}.

(** A statement of the table [t] that refers to [t] itself and to a table
    [ghost] that is never created. *)
Definition dangling_sql : string :=
  "CREATE TABLE " +:+ q "s" +:+ "." +:+ q "t" +:+ " (a int, b int);" +:+ nl
  +:+ "ALTER TABLE " +:+ q "s" +:+ "." +:+ q "t"
  +:+ " ADD FOREIGN KEY (" +:+ q "a" +:+ ") REFERENCES "
  +:+ q "s" +:+ "." +:+ q "t" +:+ " (" +:+ q "b" +:+ "),"
  +:+ " ADD FOREIGN KEY (" +:+ q "b" +:+ ") REFERENCES "
  +:+ q "s" +:+ "." +:+ q "ghost" +:+ " (" +:+ q "id" +:+ ");".

(** A column name as [parse_constraints] can record it: not empty, without
    comma or closing parenthesis, without double quote at either end. *)
Definition clean_column (c : string) : Prop :=
  c ≠ EmptyString
  ∧ all_chars (Re.in_charset (Re.NotChar ",")) c = true
  ∧ all_chars (Re.in_charset (Re.NotChar ")")) c = true
  ∧ head_char c ≠ Some dquote
  ∧ last_char c ≠ Some dquote.

(** Two [CREATE TABLE] statements for the same table, in two schemas. *)
Definition duplicate_statements : list Statement :=
  [ {| st_kw := "CREATE TABLE"; st_ws := " "; st_schema := "a";
       st_table := "t"; st_body := " (x int)" |};
    {| st_kw := "create table"; st_ws := "  "; st_schema := "b";
       st_table := "t"; st_body := " (y text)" |} ].

(** Three [ALTER TABLE] statements, two of them for the table [t]. *)
Definition alter_statements : list Statement :=
  [ {| st_kw := "ALTER TABLE"; st_ws := " "; st_schema := "s";
       st_table := "t"; st_body := " ADD PRIMARY KEY (a)" |};
    {| st_kw := "ALTER TABLE"; st_ws := " "; st_schema := "s";
       st_table := "u"; st_body := " ADD PRIMARY KEY (b)" |};
    {| st_kw := "alter table"; st_ws := " "; st_schema := "s";
       st_table := "t"; st_body := " OWNER TO me" |} ].

(** A table whose keys are declared inside its [CREATE TABLE] statement. *)
Definition inline_sql : string :=
  "CREATE TABLE " +:+ q "s" +:+ "." +:+ q "t"
  +:+ " (id int PRIMARY KEY (" +:+ q "id" +:+ "), u int REFERENCES "
  +:+ q "s" +:+ "." +:+ q "u" +:+ " (" +:+ q "id" +:+ "));".

(** A column as it is written in a column list: blanks, double quotes, the
    name, double quotes, blanks. *)
Record Column : Type := mkColumn {
  col_pre : string;
  col_open : string;
  col_name : string;
  col_close : string;
  col_post : string;
}.

Definition column_text (c : Column) : string :=
  col_pre c +:+ col_open c +:+ col_name c +:+ col_close c +:+ col_post c.

(** [p] holds neither of the first nor of the last character of [s]. *)
Definition ends_not (p : ascii → bool) (s : string) : Prop :=
  match head_char s with Some a => p a = false | None => True end
  ∧ match last_char s with Some a => p a = false | None => True end.

Definition is_dquote (a : ascii) : bool := Ascii.eqb a dquote.

(** The name holds no comma and neither starts nor ends with a blank or a
    double quote. *)
Definition column_ok (c : Column) : Prop :=
  all_chars isspace (col_pre c) = true
  ∧ all_chars isspace (col_post c) = true
  ∧ all_chars is_dquote (col_open c) = true
  ∧ all_chars is_dquote (col_close c) = true
  ∧ all_chars (Re.in_charset (Re.NotChar ",")) (col_name c) = true
  ∧ ends_not isspace (col_name c)
  ∧ ends_not is_dquote (col_name c).

(** The column list Q a Q, Q b Q ,c with blanks and quotes as in a dump. *)
Definition example_columns : list Column :=
  [ {| col_pre := EmptyString; col_open := quote; col_name := "a";
       col_close := quote; col_post := EmptyString |};
    {| col_pre := " "; col_open := quote; col_name := "b";
       col_close := quote; col_post := " " |};
    {| col_pre := EmptyString; col_open := EmptyString; col_name := "c";
       col_close := EmptyString; col_post := EmptyString |} ].

(** An entry of [constraints_raw] cut into leading whitespace, a piece, and
    trailing whitespace; the piece neither starts nor ends with a whitespace
    character. *)
Record Entry : Type := mkEntry {
  en_left : string;
  en_piece : string;
  en_right : string;
}.

Definition entry_text (e : Entry) : string :=
  en_left e +:+ en_piece e +:+ en_right e.

Definition entry_ok (e : Entry) : Prop :=
  all_chars isspace (en_left e) = true
  ∧ all_chars isspace (en_right e) = true
  ∧ ends_not isspace (en_piece e).

Definition tab : string := String "009"%char EmptyString.

(** Three entries: one padded with spaces and a newline, one made of
    whitespace only, one without padding. *)
Definition padded_entries : list Entry :=
  [ {| en_left := "  "; en_piece := "x y;"; en_right := " " +:+ nl |};
    {| en_left := tab +:+ " " +:+ nl; en_piece := EmptyString;
       en_right := EmptyString |};
    {| en_left := EmptyString; en_piece := "z"; en_right := EmptyString |} ].

(** A registry whose table [t] holds these entries. *)
Definition padded_registry : gmap string TableRecord :=
  {[ "t" := set_constraints_raw (entry_text <$> padded_entries)
              (new_table "t" "s" EmptyString) ]}.

(** The table [b] is created before the table [a], and its statement refers
    to [z] before [a]. *)
Definition order_sql : string :=
  "CREATE TABLE " +:+ q "s" +:+ "." +:+ q "b" +:+ " (x int, y int);" +:+ nl
  +:+ "CREATE TABLE " +:+ q "s" +:+ "." +:+ q "a" +:+ " (id int);" +:+ nl
  +:+ "ALTER TABLE " +:+ q "s" +:+ "." +:+ q "b"
  +:+ " ADD FOREIGN KEY (" +:+ q "x" +:+ ") REFERENCES "
  +:+ q "s" +:+ "." +:+ q "z" +:+ " (" +:+ q "id" +:+ "),"
  +:+ " ADD FOREIGN KEY (" +:+ q "y" +:+ ") REFERENCES "
  +:+ q "s" +:+ "." +:+ q "a" +:+ " (" +:+ q "id" +:+ ");".

(** * Part II: lemmas *)

(** ** The [str] methods *)

Lemma string_app_cons (a : ascii) (s t : string) :
  String a s +:+ t = String a (s +:+ t).
Proof. reflexivity. Qed.

Lemma string_app_nil_l (t : string) : EmptyString +:+ t = t.
Proof. reflexivity. Qed.

Lemma string_app_assoc (s t u : string) : (s +:+ t) +:+ u = s +:+ t +:+ u.
Proof.
  induction s as [|a s IH]; [done|]. by rewrite !string_app_cons, IH.
Qed.

Lemma string_length_app (s t : string) :
  String.length (s +:+ t) = String.length s + String.length t.
Proof.
  induction s as [|a s IH]; [done|]. rewrite string_app_cons. simpl. by rewrite IH.
Qed.

(** [split] and [join] are inverse to each other, and [strip_with] removes
    a run of characters at each end. *)
Lemma split_nonempty (sep : ascii) (s : string) : split sep s ≠ [].
Proof.
  induction s as [|a s IH]; simpl; [done|].
  destruct (Ascii.eqb a sep); [done|]. by destruct (split sep s).
Qed.

Lemma join_split (sep : ascii) (s : string) :
  join (String sep EmptyString) (split sep s) = s.
Proof.
  unfold join. induction s as [|a s IH]; simpl; [done|].
  pose proof (split_nonempty sep s) as Hne.
  destruct (Ascii.eqb_spec a sep) as [->|_].
  - destruct (split sep s) as [|w ws]; [done|]. simpl in *. by rewrite IH.
  - destruct (split sep s) as [|w ws]; [done|].
    destruct ws as [|w' ws]; simpl in *; by rewrite <- IH.
Qed.

Lemma lstrip_decompose (p : ascii → bool) (s : string) :
  ∃ l, s = l +:+ lstrip p s ∧ all_chars p l = true.
Proof.
  induction s as [|a s (l & Hl & Hp)]; simpl; [by exists EmptyString|].
  destruct (p a) eqn:E; [|by exists EmptyString].
  exists (String a l). rewrite string_app_cons, <- Hl. simpl. by rewrite E.
Qed.

Lemma rstrip_decompose (p : ascii → bool) (s : string) :
  ∃ r, s = rstrip p s +:+ r ∧ all_chars p r = true.
Proof.
  induction s as [|a s (r & Hr & Hp)]; simpl; [by exists EmptyString|].
  destruct (rstrip p s) as [|b t] eqn:E.
  - destruct (p a) eqn:Ea.
    + exists (String a r). rewrite string_app_nil_l in *. subst s.
      simpl. by rewrite Ea.
    + exists r. by rewrite string_app_cons, <- Hr.
  - exists r. by rewrite string_app_cons, <- Hr.
Qed.

(** [strip_with p] removes a run of [p]-characters at each end. *)
Lemma strip_with_decompose (p : ascii → bool) (s : string) :
  ∃ l r, s = l +:+ strip_with p s +:+ r
         ∧ all_chars p l = true ∧ all_chars p r = true.
Proof.
  destruct (lstrip_decompose p s) as (l & Hl & Hpl).
  destruct (rstrip_decompose p (lstrip p s)) as (r & Hr & Hpr).
  exists l, r. unfold strip_with. by rewrite <- Hr.
Qed.

(** ** Soundness of the matcher *)

Lemma consumed_app (t rest : string) : Re.consumed (t +:+ rest) rest = t.
Proof.
  unfold Re.consumed. rewrite string_length_app.
  replace (String.length t + String.length rest - String.length rest)
    with (String.length t) by lia.
  induction t as [|a t IH]; simpl.
  - by destruct rest.
  - by rewrite IH.
Qed.

Lemma lit_sound (l s s' : string) :
  Re.lit l s = Some s' → ∃ t, s = t +:+ s' ∧ lit_eq l t = true.
Proof.
  revert s. induction l as [|c l IH]; intros s; simpl.
  - intros [= <-]. by exists EmptyString.
  - destruct s as [|a s]; [done|].
    destruct (same_letter c a) eqn:E; [|done].
    intros (t & -> & Ht)%IH. exists (String a t). simpl. by rewrite E.
Qed.

Section Sound.
Context {R : Type}.

Lemma stop_sound (min : nat) (k : string → option R) (s : string) (x : R) :
  Re.stop min k s = Some x → min = 0 ∧ k s = Some x.
Proof. by destruct min. Qed.

Lemma max_repeat_sound (p : ascii → bool) (min : nat) (s : string)
    (k : string → option R) (x : R) :
  Re.max_repeat p min s k = Some x →
  ∃ t rest, s = t +:+ rest ∧ all_chars p t = true
            ∧ min ≤ String.length t ∧ k rest = Some x.
Proof.
  assert (∀ s, Re.stop min k s = Some x →
    ∃ t rest, s = t +:+ rest ∧ all_chars p t = true
              ∧ min ≤ String.length t ∧ k rest = Some x) as Hstop.
  { intros s' [-> Hk]%stop_sound. exists EmptyString, s'. simpl.
    split_and!; [done..|lia|done]. }
  revert min Hstop. induction s as [|a s IH]; intros min Hstop; simpl.
  - apply Hstop.
  - destruct (p a) eqn:Ea; [|apply Hstop].
    destruct (Re.max_repeat p (pred min) s k) as [y|] eqn:E; [|apply Hstop].
    intros [= ->]. apply IH in E as (t & rest & -> & Ht & Hlen & Hk).
    + exists (String a t), rest. simpl. rewrite Ea.
      split_and!; [done..|lia|done].
    + intros s' [Hmin Hk]%stop_sound. exists EmptyString, s'. simpl.
      split_and!; [done..|lia|done].
Qed.

Lemma min_repeat_sound (p : ascii → bool) (min : nat) (s : string)
    (k : string → option R) (x : R) :
  Re.min_repeat p min s k = Some x →
  ∃ t rest, s = t +:+ rest ∧ all_chars p t = true
            ∧ min ≤ String.length t ∧ k rest = Some x.
Proof.
  revert min. induction s as [|a s IH]; intros min; simpl.
  - destruct (Re.stop min k EmptyString) as [y|] eqn:E; [|done].
    intros [= ->]. apply stop_sound in E as [-> Hk].
    exists EmptyString, EmptyString. simpl. split_and!; [done..|lia|done].
  - destruct (Re.stop min k (String a s)) as [y|] eqn:E.
    + intros [= ->]. apply stop_sound in E as [-> Hk].
      exists EmptyString, (String a s). simpl. split_and!; [done..|lia|done].
    + destruct (p a) eqn:Ea; [|done].
      intros (t & rest & -> & Ht & Hlen & Hk)%IH.
      exists (String a t), rest. simpl. rewrite Ea.
      split_and!; [done..|lia|done].
Qed.

(** Soundness of the matcher: when [exec] succeeds, the continuation was
    entered after a prefix of the input that has the shape of the pattern,
    with the groups of the pattern added to the captures. *)
Lemma exec_sound (r : Re.regex) (s : string) (caps : list (string * string))
    (k : string → list (string * string) → option R) (x : R) :
  Re.exec r s caps k = Some x →
  ∃ t rest b, s = t +:+ rest ∧ matches r t b ∧ k rest (b ++ caps) = Some x.
Proof.
  revert s caps k. induction r as [l|min cs|min cs|name r IH|r1 IH1 r2 IH2];
    intros s caps k; simpl.
  - destruct (Re.lit l s) as [s'|] eqn:E; [|done].
    apply lit_sound in E as (t & -> & Ht). intros Hk.
    exists t, s', []. split_and!; [done|by constructor|done].
  - intros (t & rest & -> & Ht & Hlen & Hk)%max_repeat_sound.
    exists t, rest, []. split_and!; [done|by constructor|done].
  - intros (t & rest & -> & Ht & Hlen & Hk)%min_repeat_sound.
    exists t, rest, []. split_and!; [done|by constructor|done].
  - intros (t & rest & b & -> & Hm & Hk)%IH.
    rewrite consumed_app in Hk.
    exists t, rest, ((name, t) :: b). split_and!; [done|by constructor|done].
  - intros (t1 & rest1 & b1 & -> & Hm1 & Hk1)%IH1.
    apply IH2 in Hk1 as (t2 & rest2 & b2 & -> & Hm2 & Hk2).
    exists (t1 +:+ t2), rest2, (b2 ++ b1).
    split_and!; [by rewrite string_app_assoc|by constructor|].
    by rewrite <- app_assoc.
Qed.
End Sound.

Lemma match_sound (r : Re.regex) (s : string) (m : Re.Match) :
  Re.match_ r s = Some m →
  ∃ rest, s = Re.whole m +:+ rest ∧ matches r (Re.whole m) (Re.groups m).
Proof.
  unfold Re.match_. intros (t & rest & b & -> & Hm & [= <-])%exec_sound.
  simpl. rewrite consumed_app, app_nil_r. by exists rest.
Qed.

(** Every element of [finditer] is a piece of the text with the shape of the
    pattern. *)
Lemma finditer_sound (r : Re.regex) (s : string) (m : Re.Match) :
  m ∈ Re.finditer r s →
  ∃ pre post, s = pre +:+ Re.whole m +:+ post
              ∧ matches r (Re.whole m) (Re.groups m).
Proof.
  unfold Re.finditer. generalize 0 as skip.
  induction s as [|a s IH]; intros skip; simpl.
  - destruct skip; [|by rewrite elem_of_nil].
    destruct (Re.match_ r EmptyString) as [m'|] eqn:E; [|by rewrite elem_of_nil].
    intros ->%list_elem_of_singleton.
    apply match_sound in E as (rest & E & Hm). by exists EmptyString, rest.
  - assert (∀ n, m ∈ Re.finditer_from r n s →
              ∃ pre post, String a s = pre +:+ Re.whole m +:+ post
                          ∧ matches r (Re.whole m) (Re.groups m)) as Htail.
    { intros n (pre & post & -> & Hm)%IH. by exists (String a pre), post. }
    destruct skip; [|apply Htail].
    destruct (Re.match_ r (String a s)) as [m'|] eqn:E; [|apply Htail].
    rewrite elem_of_cons. intros [->|Hin]; [|by eapply Htail].
    apply match_sound in E as (rest & E & Hm). by exists EmptyString, rest.
Qed.

Lemma lit_eq_length (l t : string) :
  lit_eq l t = true → String.length t = String.length l.
Proof.
  revert t. induction l as [|c l IH]; intros [|a t]; simpl; try done.
  intros [_ Ht]%andb_true_iff. by rewrite (IH t).
Qed.

Lemma matches_min_length (r : Re.regex) (t : string)
    (b : list (string * string)) :
  matches r t b → min_length r ≤ String.length t.
Proof.
  induction 1; simpl; try done.
  - by rewrite (lit_eq_length l t).
  - rewrite string_length_app. lia.
Qed.

(** No match of the program's patterns is empty, so that [finditer] always
    resumes after the end of the previous match. *)
Lemma finditer_nonempty (r : Re.regex) (s : string) (m : Re.Match) :
  r ∈ [create_pattern; alter_pattern; primary_key_pattern; foreign_key_pattern] →
  m ∈ Re.finditer r s → 1 ≤ String.length (Re.whole m).
Proof.
  intros Hr (_ & _ & _ & Hm%matches_min_length)%finditer_sound.
  etrans; [|exact Hm].
  repeat (apply elem_of_cons in Hr as [->|Hr]; [vm_compute; lia|]).
  by apply elem_of_nil in Hr.
Qed.

(** ** The shape of the matches of the program *)

Lemma code_ascii_of_N (n : N) : (n < 256)%N → code (ascii_of_N n) = n.
Proof. intros Hn. unfold code. by apply N_ascii_embedding. Qed.

(** A character that is not a letter is matched by itself only. *)
Lemma same_letter_symbol (c a : ascii) :
  is_letter c = false → same_letter c a = true → a = c.
Proof.
  unfold is_letter, same_letter, lower. cbv zeta.
  intros Hc Heq%Ascii.eqb_eq. revert Hc Heq.
  destruct (N.leb_spec 65 (code c)), (N.leb_spec (code c) 90),
    (N.leb_spec 97 (code c)), (N.leb_spec (code c) 122),
    (N.leb_spec 65 (code a)), (N.leb_spec (code a) 90);
    simpl; try done; try lia; intros _ Heq;
    apply (f_equal code) in Heq;
    rewrite ?code_ascii_of_N in Heq by lia; lia.
Qed.

Lemma lit_eq_symbol (c : ascii) (t : string) :
  is_letter c = false →
  lit_eq (String c EmptyString) t = true → t = String c EmptyString.
Proof.
  intros Hc. destruct t as [|a t]; simpl; [done|].
  intros [Ha Ht]%andb_true_iff. destruct t; [|done].
  by rewrite (same_letter_symbol c a).
Qed.

Ltac invert_matches :=
  repeat match goal with
    | H : matches (Re.Seq _ _) _ _ |- _ => inversion H; subst; clear H
    | H : matches (Re.Group _ _) _ _ |- _ => inversion H; subst; clear H
    | H : matches (Re.Lit _) _ _ |- _ => inversion H; subst; clear H
    | H : matches (Re.MaxRepeat _ _) _ _ |- _ => inversion H; subst; clear H
    | H : matches (Re.MinRepeat _ _) _ _ |- _ => inversion H; subst; clear H
    | H : lit_eq (String _ EmptyString) _ = true |- _ =>
        apply lit_eq_symbol in H; [subst|reflexivity]
    end.

Lemma statement_pattern_shape (keywords : string) (m : Re.Match) :
  matches
    (Re.Group "1"
       (Re.Lit keywords ⋅ Re.MaxRepeat 1 Re.Space
        ⋅ quote_lit ⋅ Re.Group "schema" ident_chars ⋅ quote_lit
        ⋅ Re.Lit "."
        ⋅ quote_lit ⋅ Re.Group "table" ident_chars ⋅ quote_lit
        ⋅ Re.MinRepeat 0 Re.AnyChar ⋅ Re.Lit ";"))
    (Re.whole m) (Re.groups m) →
  statement_shape keywords m.
Proof.
  unfold quote_lit, ident_chars, statement_shape, Re.group.
  destruct m as [w g]. simpl. intros H. invert_matches.
  do 5 eexists. split; [reflexivity|]. simpl. split_and!; done.
Qed.

Lemma primary_key_pattern_shape (m : Re.Match) :
  matches primary_key_pattern (Re.whole m) (Re.groups m) →
  primary_key_shape m.
Proof.
  unfold primary_key_pattern, column_chars, primary_key_shape, Re.group.
  destruct m as [w g]. simpl. intros H. invert_matches.
  do 5 eexists. split; [reflexivity|]. simpl. split_and!; done.
Qed.

Lemma foreign_key_pattern_shape (m : Re.Match) :
  matches foreign_key_pattern (Re.whole m) (Re.groups m) →
  foreign_key_shape m.
Proof.
  unfold foreign_key_pattern, quote_lit, ident_chars, column_chars,
    foreign_key_shape, Re.group.
  destruct m as [w g]. simpl. intros H. invert_matches.
  do 12 eexists. split; [reflexivity|]. simpl. split_and!; done.
Qed.

Lemma create_matches_shape (sql_text : string) (m : Re.Match) :
  m ∈ Re.finditer create_pattern sql_text → statement_shape "CREATE TABLE" m.
Proof.
  intros (_ & _ & _ & Hm)%finditer_sound. by apply statement_pattern_shape.
Qed.

Lemma alter_matches_shape (sql_text : string) (m : Re.Match) :
  m ∈ Re.finditer alter_pattern sql_text → statement_shape "ALTER TABLE" m.
Proof.
  intros (_ & _ & _ & Hm)%finditer_sound. by apply statement_pattern_shape.
Qed.

Lemma primary_key_matches_shape (stmt : string) (m : Re.Match) :
  m ∈ Re.finditer primary_key_pattern stmt → primary_key_shape m.
Proof.
  intros (_ & _ & _ & Hm)%finditer_sound. by apply primary_key_pattern_shape.
Qed.

Lemma foreign_key_matches_shape (stmt : string) (m : Re.Match) :
  m ∈ Re.finditer foreign_key_pattern stmt → foreign_key_shape m.
Proof.
  intros (_ & _ & _ & Hm)%finditer_sound. by apply foreign_key_pattern_shape.
Qed.

(** ** Ordering of strings *)

Lemma string_compare_refl (s : string) : String.compare s s = Eq.
Proof.
  induction s as [|a s IH]; simpl; [done|].
  unfold Ascii.compare. by rewrite N.compare_refl.
Qed.

Lemma str_lt_le_ne (a b : string) : str_lt a b ↔ String.le a b ∧ a ≠ b.
Proof.
  unfold str_lt, String.le, String.ltb, String.leb. split.
  - intros H. destruct (String.compare a b) eqn:E; try done.
    split; [done|]. intros ->. by rewrite string_compare_refl in E.
  - intros [Hle Hne]. destruct (String.compare a b) eqn:E; try done.
    by apply String.compare_eq_iff in E.
Qed.

Lemma str_lt_irrefl (a : string) : ¬ str_lt a a.
Proof. rewrite str_lt_le_ne. by intros [_ ?]. Qed.

Lemma str_lt_asym (a b : string) : str_lt a b → str_lt b a → False.
Proof.
  rewrite !str_lt_le_ne. intros [H1 Hne] [H2 _].
  apply Hne. by apply (anti_symm String.le).
Qed.

Lemma sorted_strict (l : list string) :
  NoDup l → StronglySorted str_lt (sorted l).
Proof.
  intros Hnd. unfold sorted.
  assert (NoDup (merge_sort String.le l)) as Hnd'
    by (by rewrite merge_sort_Permutation).
  pose proof (StronglySorted_merge_sort String.le l) as Hs.
  induction Hs as [|x l' Hs IH Hall]; [constructor|].
  apply NoDup_cons in Hnd' as [Hx Hnd'].
  constructor; [by apply IH|].
  apply Forall_forall. intros y Hy. apply str_lt_le_ne. split.
  - by eapply Forall_forall in Hall.
  - intros ->. done.
Qed.

Lemma elem_of_sorted (l : list string) (x : string) : x ∈ sorted l ↔ x ∈ l.
Proof. unfold sorted. by rewrite merge_sort_Permutation. Qed.

(** In a strictly sorted list, positions and values are ordered alike. *)
Lemma strictly_sorted_index (l : list string) (i j : nat) (a b : string) :
  StronglySorted str_lt l →
  l !! i = Some a → l !! j = Some b → (i < j ↔ str_lt a b).
Proof.
  intros Hs. revert i j.
  assert (∀ i j a b, l !! i = Some a → l !! j = Some b → i < j → str_lt a b)
    as Hmono.
  { induction Hs as [|x l' Hs IH Hall]; intros i j a' b' Hi Hj Hlt.
    - by rewrite lookup_nil in Hi.
    - destruct j as [|j]; [lia|]. destruct i as [|i]; simpl in *.
      + simplify_eq. eapply Forall_forall in Hall; [done|].
        by eapply list_elem_of_lookup_2.
      + eapply IH; [done..|lia]. }
  intros i j Hi Hj. split; [by eapply Hmono|].
  intros Hab. destruct (decide (i < j)) as [|Hge]; [done|].
  destruct (decide (i = j)) as [->|Hne].
  - simplify_eq. by apply str_lt_irrefl in Hab.
  - exfalso. eapply str_lt_asym; [exact Hab|].
    eapply (Hmono j i); [done..|lia].
Qed.

(** ** Facts about [to_serializable] *)

Lemma elem_of_keys (items : gmap string TableRecord) (k : string) :
  k ∈ keys items ↔ is_Some (items !! k).
Proof.
  unfold keys. rewrite list_elem_of_fmap. split.
  - intros [[k' item] [-> Hin]]. apply elem_of_map_to_list in Hin. by eexists.
  - intros [item Hitem]. exists (k, item). split; [done|].
    by apply elem_of_map_to_list.
Qed.

Lemma NoDup_keys (items : gmap string TableRecord) : NoDup (keys items).
Proof. apply NoDup_fst_map_to_list. Qed.

(** The output has one record per key, in the order of the sorted keys. *)
Lemma to_serializable_keys (items : gmap string TableRecord) :
  Forall2 (λ k o, ∃ item, items !! k = Some item ∧ o = serialize_item item)
          (sorted (keys items)) (to_serializable items).
Proof.
  unfold to_serializable.
  assert (∀ k, k ∈ sorted (keys items) → is_Some (items !! k)) as Hin.
  { intros k. rewrite elem_of_sorted. apply elem_of_keys. }
  induction (sorted (keys items)) as [|k l IH]; simpl; [constructor|].
  destruct (Hin k) as [item Hitem]; [left|].
  rewrite Hitem. simpl. constructor; [by exists item|].
  apply IH. intros k' Hk'. apply Hin. by right.
Qed.

Lemma elem_of_to_serializable (items : gmap string TableRecord) (o : Out.t) :
  o ∈ to_serializable items ↔
  ∃ k item, items !! k = Some item ∧ o = serialize_item item.
Proof.
  pose proof (to_serializable_keys items) as H. split.
  - intros Ho. apply list_elem_of_lookup in Ho as [i Hi].
    destruct (Forall2_lookup_r _ _ _ _ _ H Hi) as (k & _ & item & ? & ?).
    by exists k, item.
  - intros (k & item & Hk & ->).
    assert (k ∈ sorted (keys items)) as Hin.
    { apply elem_of_sorted, elem_of_keys. by eexists. }
    apply list_elem_of_lookup in Hin as [i Hi].
    destruct (Forall2_lookup_l _ _ _ _ _ H Hi) as (o & Ho & item' & ? & ->).
    simplify_eq. by eapply list_elem_of_lookup_2.
Qed.

Lemma to_serializable_names (items : gmap string TableRecord) :
  keyed items → Out.name <$> to_serializable items = sorted (keys items).
Proof.
  intros Hk. pose proof (to_serializable_keys items) as H.
  induction H as [|k o l out (item & Hitem & ->) _ IH]; simpl; [done|].
  f_equal; [|done]. by apply Hk.
Qed.

(** ** Facts about [extract_tables_and_ddl] *)

(** After the loop, a name is bound to the record of the last match that
    carries it. *)
Lemma create_steps_lookup (ms : list Re.Match) (tables : gmap string TableRecord)
    (t : string) :
  fold_left create_step ms tables !! t =
  match last (filter (λ m, Re.group "table" m = t) ms) with
  | Some m => Some (created m)
  | None => tables !! t
  end.
Proof.
  induction ms as [|m ms IH] using rev_ind; [done|].
  rewrite fold_left_app, filter_app. simpl. unfold create_step at 1.
  rewrite filter_cons, filter_nil.
  destruct (decide (Re.group "table" m = t)) as [<-|Hne].
  - rewrite last_snoc. by rewrite lookup_insert_eq.
  - rewrite app_nil_r. by rewrite lookup_insert_ne.
Qed.

Lemma extract_lookup (sql_text t : string) (item : TableRecord) :
  extract_tables_and_ddl sql_text !! t = Some item →
  ∃ m, m ∈ Re.finditer create_pattern sql_text
       ∧ Re.group "table" m = t ∧ item = created m.
Proof.
  unfold extract_tables_and_ddl. rewrite create_steps_lookup.
  destruct (last _) as [m|] eqn:E; [|by rewrite lookup_empty].
  intros [= <-]. exists m.
  apply last_Some_elem_of, list_elem_of_filter in E as [? ?]. done.
Qed.

Lemma extract_keyed (sql_text : string) :
  keyed (extract_tables_and_ddl sql_text).
Proof.
  intros t item Ht. apply extract_lookup in Ht as (m & _ & <- & ->). done.
Qed.

(** ** Facts about [parse_constraints] *)

Lemma alter_step_lookup (tables : gmap string TableRecord) (m : Re.Match)
    (t : string) :
  alter_step tables m !! t =
  if decide (Re.group "table" m = t)
  then apply_statement (Re.group "1" m) <$> tables !! t
  else tables !! t.
Proof.
  unfold alter_step. case_decide as Ht.
  - subst t. destruct (tables !! Re.group "table" m) as [item|] eqn:E.
    + by rewrite lookup_insert_eq.
    + by rewrite E.
  - destruct (tables !! Re.group "table" m); [|done].
    by rewrite lookup_insert_ne.
Qed.

(** The loop over the [ALTER TABLE] matches acts on each record separately:
    the record of [t] receives the statements that name [t], in order. *)
Lemma alter_steps_lookup (ms : list Re.Match) (tables : gmap string TableRecord)
    (t : string) :
  fold_left alter_step ms tables !! t =
  apply_statements (statements_for t ms) <$> tables !! t.
Proof.
  revert tables. induction ms as [|m ms IH]; intros tables; simpl.
  - by destruct (tables !! t).
  - rewrite IH, alter_step_lookup. unfold statements_for.
    rewrite filter_cons. case_decide; [|done].
    by destruct (tables !! t).
Qed.

Lemma add_primary_keys_fold (cols : list string) (item : TableRecord) :
  fold_left add_primary_key cols item =
  set_primary_keys (fold_left add_key cols (primary_keys item)) item.
Proof.
  revert item. induction cols as [|c cols IH]; intros item; simpl.
  - by destruct item.
  - rewrite IH. unfold add_primary_key, add_key. by case_decide.
Qed.

Lemma primary_key_steps (pms : list Re.Match) (item : TableRecord) :
  fold_left primary_key_step pms item =
  set_primary_keys
    (fold_left add_key (pms ≫= (λ pm, column_list (Re.group "cols" pm)))
       (primary_keys item))
    item.
Proof.
  revert item. induction pms as [|pm pms IH]; intros item; simpl.
  - by destruct item.
  - rewrite IH. unfold primary_key_step.
    rewrite add_primary_keys_fold, fold_left_app. done.
Qed.

Lemma foreign_key_steps (fkms : list Re.Match) (item : TableRecord) :
  fold_left foreign_key_step fkms item =
  set_dependencies
    (dependencies item ∪ list_to_set (Re.group "ref_table" <$> fkms))
    (set_foreign_keys (foreign_keys item ++ (foreign_key_of <$> fkms)) item).
Proof.
  revert item. induction fkms as [|fkm fkms IH]; intros item; simpl.
  - destruct item. unfold set_dependencies, set_foreign_keys. simpl.
    f_equal; [by rewrite app_nil_r|by rewrite union_empty_r_L].
  - rewrite IH. unfold foreign_key_step, set_dependencies, set_foreign_keys.
    simpl. f_equal; [by rewrite <- app_assoc|by rewrite (assoc_L (∪))].
Qed.

Lemma apply_statement_eq (stmt : string) (item : TableRecord) :
  apply_statement stmt item =
  {| name := name item;
     schema_name := schema_name item;
     schema_stmt := schema_stmt item;
     constraints_raw := constraints_raw item ++ [stmt];
     primary_keys :=
       fold_left add_key (primary_key_tokens stmt) (primary_keys item);
     foreign_keys :=
       foreign_keys item ++ (foreign_key_of <$> foreign_key_clauses stmt);
     dependencies :=
       dependencies item
       ∪ list_to_set (Re.group "ref_table" <$> foreign_key_clauses stmt) |}.
Proof.
  unfold apply_statement. by rewrite foreign_key_steps, primary_key_steps.
Qed.

(** The record of a table after all its statements have been applied. *)
Lemma apply_statements_eq (stmts : list string) (item : TableRecord) :
  apply_statements stmts item =
  {| name := name item;
     schema_name := schema_name item;
     schema_stmt := schema_stmt item;
     constraints_raw := constraints_raw item ++ stmts;
     primary_keys :=
       fold_left add_key (stmts ≫= primary_key_tokens) (primary_keys item);
     foreign_keys :=
       foreign_keys item
       ++ (foreign_key_of <$> (stmts ≫= foreign_key_clauses));
     dependencies :=
       dependencies item
       ∪ list_to_set (Re.group "ref_table" <$> (stmts ≫= foreign_key_clauses)) |}.
Proof.
  unfold apply_statements.
  revert item. induction stmts as [|stmt stmts IH]; intros item; simpl.
  - destruct item; simpl.
    f_equal; [by rewrite app_nil_r..|by rewrite union_empty_r_L].
  - rewrite IH, apply_statement_eq. simpl. f_equal.
    + by rewrite <- app_assoc.
    + by rewrite fold_left_app.
    + by rewrite fmap_app, app_assoc.
    + by rewrite fmap_app, list_to_set_app_L, (assoc_L (∪)).
Qed.

Lemma add_keys_prefix (cols pks : list string) :
  pks `prefix_of` fold_left add_key cols pks.
Proof.
  revert pks. induction cols as [|c cols IH]; intros pks; simpl; [done|].
  etrans; [|apply IH]. unfold add_key. case_decide; [|done].
  by apply prefix_app_r.
Qed.

Lemma alter_steps_empty (ms : list Re.Match) :
  fold_left alter_step ms (∅ : gmap string TableRecord) = ∅.
Proof.
  apply map_eq. intros t. by rewrite alter_steps_lookup, !lookup_empty.
Qed.

(** [parse_constraints] neither adds nor removes a key, and keeps every
    record under its name. *)
Lemma parse_constraints_keyed (sql_text : string)
    (tables : gmap string TableRecord) :
  keyed tables → keyed (parse_constraints sql_text tables).2.
Proof.
  intros Hk t item'. simpl. rewrite alter_steps_lookup.
  destruct (tables !! t) as [item|] eqn:E; [|done].
  simpl. intros [= <-]. rewrite apply_statements_eq. simpl. by apply Hk.
Qed.

(** The record of a table at the end of the pipeline. *)
Lemma pipeline_lookup (sql_text t : string) (item : TableRecord) :
  (parse_constraints sql_text (extract_tables_and_ddl sql_text)).2 !! t
  = Some item →
  ∃ m, m ∈ Re.finditer create_pattern sql_text
    ∧ Re.group "table" m = t
    ∧ item = apply_statements
               (statements_for t (Re.finditer alter_pattern sql_text))
               (created m).
Proof.
  simpl. rewrite alter_steps_lookup.
  destruct (extract_tables_and_ddl sql_text !! t) as [item0|] eqn:E; [|done].
  simpl. intros [= <-].
  apply extract_lookup in E as (m & Hm & Ht & ->). by exists m.
Qed.

Lemma bind_primary_key_tokens (stmts : list string) :
  stmts ≫= primary_key_tokens =
  (stmts ≫= Re.finditer primary_key_pattern)
  ≫= (λ pm, column_list (Re.group "cols" pm)).
Proof.
  induction stmts as [|stmt stmts IH]; [done|].
  by rewrite !bind_cons, bind_app, IH.
Qed.

(** *** Order of first appearance *)

Lemma first_occurrences_filter (P : string → Prop) `{!∀ x, Decision (P x)}
    (l : list string) :
  filter P (first_occurrences l) = first_occurrences (filter P l).
Proof.
  induction l as [|x l IH]; simpl; [done|].
  rewrite !filter_cons. case_decide as HP; simpl.
  - f_equal. rewrite <- IH, !list_filter_filter.
    apply list_filter_iff. intros y. tauto.
  - rewrite <- IH, list_filter_filter.
    apply list_filter_iff. intros y. split; [tauto|].
    intros HPy. split; [done|]. by intros ->.
Qed.

Lemma elem_of_first_occurrences (l : list string) (x : string) :
  x ∈ first_occurrences l ↔ x ∈ l.
Proof.
  induction l as [|y l IH]; simpl; [done|].
  rewrite !elem_of_cons, list_elem_of_filter, IH.
  destruct (decide (x = y)); tauto.
Qed.

Lemma NoDup_first_occurrences (l : list string) : NoDup (first_occurrences l).
Proof.
  induction l as [|x l IH]; simpl; [constructor|].
  apply NoDup_cons. split; [|by apply NoDup_filter].
  rewrite list_elem_of_filter. by intros [? _].
Qed.

(** The accumulating loop of the program computes the first occurrences of
    the non-empty columns that are not yet in the list. *)
Lemma add_keys_first_occurrences (cols pks : list string) :
  fold_left add_key cols pks =
  pks ++ first_occurrences (filter (λ c, c ≠ EmptyString ∧ c ∉ pks) cols).
Proof.
  revert pks. induction cols as [|c cols IH]; intros pks; simpl.
  - by rewrite app_nil_r.
  - rewrite IH. unfold add_key. rewrite filter_cons.
    case_decide as Hc; [|done].
    simpl. rewrite <- app_assoc. simpl. do 2 f_equal.
    rewrite first_occurrences_filter, list_filter_filter. f_equal.
    apply list_filter_iff. intros y.
    rewrite elem_of_app, list_elem_of_singleton. tauto.
Qed.

(** *** Table names in [references] *)


(** ** The whole run *)

Lemma parse_sql_eq (sql_text : string) :
  parse_sql sql_text
  = to_serializable
      (parse_constraints sql_text (extract_tables_and_ddl sql_text)).2.
Proof. reflexivity. Qed.

(** ** Completeness of the matcher *)

Lemma string_app_nil_r (s : string) : s +:+ EmptyString = s.
Proof. induction s as [|a s IH]; [done|]. by rewrite string_app_cons, IH. Qed.

Lemma consumed_nil (s : string) : Re.consumed s EmptyString = s.
Proof. by rewrite <- (string_app_nil_r s) at 1; rewrite consumed_app. Qed.

Lemma lit_complete (l t rest : string) :
  lit_eq l t = true → Re.lit l (t +:+ rest) = Some rest.
Proof.
  revert t. induction l as [|c l IH]; intros [|a t]; simpl; try done.
  intros [Ha Ht]%andb_true_iff. rewrite Ha. by apply IH.
Qed.

Section Complete.
Context {R : Type}.

Lemma max_repeat_complete (p : ascii → bool) (min : nat) (t rest : string)
    (k : string → option R) :
  all_chars p t = true → min ≤ String.length t → is_Some (k rest) →
  is_Some (Re.max_repeat p min (t +:+ rest) k).
Proof.
  intros Ht Hmin Hk. revert min Ht Hmin.
  induction t as [|a t IH]; intros min Ht Hmin; simpl in *.
  - assert (min = 0) as -> by lia. rewrite ?string_app_nil_l.
    destruct rest as [|a rest]; simpl; [done|].
    destruct (p a); [|done]. by destruct (Re.max_repeat p 0 rest k).
  - apply andb_true_iff in Ht as [Ha Ht]. rewrite ?string_app_cons. simpl.
    rewrite Ha. destruct (IH (pred min) Ht ltac:(lia)) as [y ->]. done.
Qed.

Lemma min_repeat_complete (p : ascii → bool) (min : nat) (t rest : string)
    (k : string → option R) :
  all_chars p t = true → min ≤ String.length t → is_Some (k rest) →
  is_Some (Re.min_repeat p min (t +:+ rest) k).
Proof.
  intros Ht Hmin Hk. revert min Ht Hmin.
  induction t as [|a t IH]; intros min Ht Hmin; simpl in *.
  - assert (min = 0) as -> by lia. rewrite ?string_app_nil_l.
    destruct Hk as [y Hy]. destruct rest; simpl; by rewrite Hy.
  - apply andb_true_iff in Ht as [Ha Ht]. rewrite ?string_app_cons. simpl.
    destruct (Re.stop min k (String a (t +:+ rest))); [done|].
    rewrite Ha. apply IH; [done|lia].
Qed.

(** When a prefix of the input has the shape of the pattern and the rest of
    the pattern accepts what follows, the matcher succeeds. *)
Lemma exec_complete (r : Re.regex) (t : string) (b : list (string * string)) :
  matches r t b →
  ∀ (rest : string) (caps : list (string * string))
    (k : string → list (string * string) → option R),
    is_Some (k rest (b ++ caps)) → is_Some (Re.exec r (t +:+ rest) caps k).
Proof.
  induction 1 as [l t Hl|min cs t Ht Hmin|min cs t Ht Hmin|name r t b Hm IH
                 |r1 r2 t1 t2 b1 b2 Hm1 IH1 Hm2 IH2]; intros rest caps k Hk; simpl.
  - by rewrite (lit_complete l t rest).
  - by apply max_repeat_complete.
  - by apply min_repeat_complete.
  - apply IH. by rewrite consumed_app.
  - rewrite string_app_assoc. apply IH1, IH2. by rewrite app_assoc.
Qed.
End Complete.

Lemma match_complete (r : Re.regex) (t rest : string)
    (b : list (string * string)) :
  matches r t b → is_Some (Re.match_ r (t +:+ rest)).
Proof. intros Hm. unfold Re.match_. by eapply exec_complete. Qed.

(** The pattern matches at the start of a text exactly when a prefix of the
    text has its shape. *)
Lemma match_is_Some_iff (r : Re.regex) (s : string) :
  is_Some (Re.match_ r s) ↔ ∃ t rest b, s = t +:+ rest ∧ matches r t b.
Proof.
  split.
  - intros [m (rest & Hs & Hm)%match_sound]. by eexists _, _, _.
  - intros (t & rest & b & -> & Hm). by eapply match_complete.
Qed.

(** ** Exact results of the repetitions *)

Section Exact.
Context {R : Type}.

(** A greedy repetition followed by a character outside its class takes the
    whole run. *)
Lemma max_repeat_exact (p : ascii → bool) (min : nat) (t rest : string)
    (k : string → option R) (x : R) :
  all_chars p t = true → min ≤ String.length t →
  match head_char rest with Some a => p a = false | None => True end →
  k rest = Some x →
  Re.max_repeat p min (t +:+ rest) k = Some x.
Proof.
  intros Ht Hmin Hrest Hk. revert min Ht Hmin.
  induction t as [|a t IH]; intros min Ht Hmin; simpl in *.
  - assert (min = 0) as -> by lia. rewrite ?string_app_nil_l.
    destruct rest as [|a rest]; simpl in *; [done|]. by rewrite Hrest.
  - apply andb_true_iff in Ht as [Ha Ht]. rewrite ?string_app_cons. simpl.
    by rewrite Ha, (IH (pred min) Ht ltac:(lia)).
Qed.

(** A lazy repetition stops at the first place where the rest of the pattern
    succeeds. *)
Lemma min_repeat_minimal (p : ascii → bool) (s : string)
    (k : string → option R) (x : R) :
  Re.min_repeat p 0 s k = Some x →
  ∃ t rest, s = t +:+ rest ∧ all_chars p t = true ∧ k rest = Some x
            ∧ ∀ t1 t2, t = t1 +:+ t2 → t2 ≠ EmptyString →
                       k (t2 +:+ rest) = None.
Proof.
  induction s as [|a s IH]; simpl.
  - destruct (k EmptyString) as [y|] eqn:E; [|done]. intros [= ->].
    exists EmptyString, EmptyString. split_and!; [done..|].
    intros [|] [|]; done.
  - destruct (k (String a s)) as [y|] eqn:E.
    + intros [= ->]. exists EmptyString, (String a s). split_and!; [done..|].
      intros [|] [|]; done.
    + destruct (p a) eqn:Ea; [|done].
      intros (t & rest & -> & Ht & Hk & Hmin)%IH.
      exists (String a t), rest. simpl. rewrite Ea. split_and!; [done..|].
      intros [|b t1] t2; rewrite ?string_app_nil_l, ?string_app_cons.
      * intros <- _. by rewrite string_app_cons.
      * intros [= -> ->] Hne. by apply (Hmin t1).
Qed.

Lemma min_repeat_exact (p : ascii → bool) (t rest : string)
    (k : string → option R) (x : R) :
  all_chars p t = true → k rest = Some x →
  (∀ t1 t2, t = t1 +:+ t2 → t2 ≠ EmptyString → k (t2 +:+ rest) = None) →
  Re.min_repeat p 0 (t +:+ rest) k = Some x.
Proof.
  induction t as [|a t IH]; simpl; intros Ht Hk Hmin.
  - rewrite ?string_app_nil_l. destruct rest; simpl; by rewrite Hk.
  - apply andb_true_iff in Ht as [Ha Ht]. rewrite ?string_app_cons. simpl.
    rewrite <- string_app_cons, (Hmin EmptyString (String a t)) by done.
    rewrite Ha. apply IH; [done..|].
    intros t1 t2 -> Hne. by apply (Hmin (String a t1) t2).
Qed.
End Exact.

(** ** The scan of [finditer] *)

Lemma finditer_from_skip (r : Re.regex) (t rest : string) :
  Re.finditer_from r (String.length t) (t +:+ rest) = Re.finditer_from r 0 rest.
Proof.
  induction t as [|a t IH]; simpl; [|exact IH].
  by rewrite ?string_app_nil_l.
Qed.

Lemma finditer_match_app (r : Re.regex) (s : string) (m : Re.Match) :
  Re.match_ r s = Some m → 1 ≤ String.length (Re.whole m) →
  ∃ rest, s = Re.whole m +:+ rest
          ∧ Re.finditer r s = m :: Re.finditer r rest.
Proof.
  intros Hm Hlen. destruct (match_sound _ _ _ Hm) as (rest & Hs & _).
  exists rest. split; [done|]. unfold Re.finditer.
  destruct (Re.whole m) as [|a w] eqn:Ew; simpl in Hlen; [lia|].
  rewrite Hs, string_app_cons. simpl.
  rewrite <- string_app_cons, <- Hs, Hm, Ew. simpl.
  by rewrite finditer_from_skip.
Qed.

Lemma finditer_no_match (r : Re.regex) (a : ascii) (s : string) :
  Re.match_ r (String a s) = None →
  Re.finditer r (String a s) = Re.finditer r s.
Proof. unfold Re.finditer. simpl. by intros ->. Qed.

Lemma match_nonempty (r : Re.regex) (s : string) (m : Re.Match) :
  1 ≤ min_length r → Re.match_ r s = Some m → 1 ≤ String.length (Re.whole m).
Proof.
  intros Hr (_ & _ & Hm%matches_min_length)%match_sound. lia.
Qed.

Lemma scanned_cons_none (r : Re.regex) (a : ascii) (s : string)
    (ms : list Re.Match) :
  Re.match_ r (String a s) = None → scanned r s ms → scanned r (String a s) ms.
Proof.
  intros Hnone Hs. destruct Hs as [s Hend|gap m rest ms Hgap Hm Hs].
  - constructor. intros [|b s1] s2; rewrite ?string_app_nil_l, ?string_app_cons.
    + by intros <-.
    + intros [= -> ->]. by apply (Hend s1).
  - rewrite <- string_app_cons. constructor; [|done..].
    intros [|b g1] g2; rewrite ?string_app_nil_l, ?string_app_cons.
    + intros <- _. by rewrite string_app_cons.
    + intros [= -> ->] Hne. by apply (Hgap g1).
Qed.

(** [finditer] scans the text from left to right: its matches do not
    overlap, come in text order, and each is the first match after the
    previous one. *)
Lemma finditer_scanned (r : Re.regex) (s : string) :
  1 ≤ min_length r → scanned r s (Re.finditer r s).
Proof.
  intros Hr. remember (String.length s) as n eqn:Hn.
  revert s Hn. induction n as [n IH] using lt_wf_ind. intros s ->.
  destruct s as [|a s].
  - unfold Re.finditer. simpl.
    destruct (Re.match_ r EmptyString) as [m|] eqn:E.
    + apply match_nonempty in E as Hlen; [|done].
      apply match_sound in E as (rest & Hs & _).
      destruct (Re.whole m); [simpl in Hlen; lia|done].
    + constructor. intros [|] [|]; done.
  - destruct (Re.match_ r (String a s)) as [m|] eqn:E.
    + apply match_nonempty in E as Hlen; [|done].
      destruct (finditer_match_app _ _ _ E Hlen) as (rest & Hs & ->).
      rewrite Hs. rewrite <- (string_app_nil_l (Re.whole m +:+ rest)).
      constructor.
      * intros [|] [|]; done.
      * by rewrite <- Hs.
      * eapply IH; [|done]. rewrite Hs, string_length_app. lia.
    + rewrite finditer_no_match by done.
      apply scanned_cons_none; [done|]. eapply IH; [|done]. simpl. lia.
Qed.

(** Such a scan is unique: [scanned] describes [finditer] completely. *)
Lemma scanned_finditer (r : Re.regex) (s : string) (ms : list Re.Match) :
  1 ≤ min_length r → scanned r s ms → ms = Re.finditer r s.
Proof.
  intros Hr. induction 1 as [s Hend|gap m rest ms Hgap Hm Hs IH].
  - induction s as [|a s IH].
    + unfold Re.finditer. simpl. by rewrite (Hend EmptyString EmptyString).
    + rewrite finditer_no_match by (by apply (Hend EmptyString)).
      apply IH. intros s1 s2 ->. by apply (Hend (String a s1)).
  - induction gap as [|a gap IHg].
    + rewrite ?string_app_nil_l.
      apply match_nonempty in Hm as Hlen; [|done].
      destruct (finditer_match_app _ _ _ Hm Hlen) as (rest' & Hs' & ->).
      apply String.app_inj in Hs' as <-. by rewrite IH.
    + rewrite string_app_cons, finditer_no_match.
      * apply IHg. intros g1 g2 -> Hne. by apply (Hgap (String a g1)).
      * rewrite <- string_app_cons. by apply (Hgap EmptyString).
Qed.

(** ** Statements are recognised exactly *)

Lemma all_chars_any (s : string) : all_chars (Re.in_charset Re.AnyChar) s = true.
Proof.
  induction s as [|a s IH]; simpl; [done|]. rewrite IH.
  by destruct (isspace a).
Qed.

Lemma all_chars_app (p : ascii → bool) (s t : string) :
  all_chars p (s +:+ t) = all_chars p s && all_chars p t.
Proof.
  induction s as [|a s IH]; simpl; [done|]. by rewrite IH, andb_assoc.
Qed.

Lemma same_letter_refl (a : ascii) : same_letter a a = true.
Proof. unfold same_letter. apply Ascii.eqb_refl. Qed.

Lemma same_letter_symbol_ne (c a : ascii) :
  is_letter c = false → a ≠ c → same_letter c a = false.
Proof.
  intros Hc Hne. destruct (same_letter c a) eqn:E; [|done].
  by apply same_letter_symbol in E.
Qed.

Lemma statement_text_app (kw ws schema table body rest : string) :
  statement_text kw ws schema table body +:+ rest
  = kw +:+ ws +:+ quote +:+ schema +:+ quote +:+ "." +:+ quote +:+ table
    +:+ quote +:+ body +:+ ";" +:+ rest.
Proof. unfold statement_text. by rewrite !string_app_assoc. Qed.

(** A statement at the start of a text is matched, and matched as a whole,
    whatever follows it. *)
Lemma statement_match_exact (keywords kw ws schema table body rest : string) :
  statement_parts keywords kw ws schema table body →
  Re.match_ (statement_pattern keywords)
    (statement_text kw ws schema table body +:+ rest)
  = Some (statement_match kw ws schema table body).
Proof.
  intros (Hkw & Hws & Hws1 & Hs & Hs1 & Ht & Ht1 & Hb).
  unfold Re.match_, statement_pattern, quote_lit, ident_chars.
  rewrite statement_text_app. cbn [Re.exec].
  rewrite (lit_complete keywords kw) by done.
  apply max_repeat_exact; [done..| |]; [by vm_compute|]. cbv beta.
  rewrite (lit_complete quote quote) by done.
  apply max_repeat_exact; [done..| |]; [by vm_compute|]. cbv beta.
  rewrite (lit_complete quote quote) by done.
  rewrite (lit_complete "." ".") by done.
  rewrite (lit_complete quote quote) by done.
  apply max_repeat_exact; [done..| |]; [by vm_compute|]. cbv beta.
  rewrite (lit_complete quote quote) by done.
  apply min_repeat_exact; [apply all_chars_any| |].
  - rewrite (lit_complete ";" ";") by done.
    rewrite !consumed_app, <- statement_text_app, consumed_app. done.
  - intros t1 [|a t2] -> Hne; [done|].
    rewrite all_chars_app in Hb. apply andb_true_iff in Hb as [_ Hb].
    simpl in Hb. apply andb_true_iff in Hb as [Ha _].
    apply negb_true_iff, Ascii.eqb_neq in Ha.
    simpl. by rewrite same_letter_symbol_ne.
Qed.

Lemma lazy_body_no_semicolon {R : Type} (body rest : string)
    (k : string → option R) :
  (∀ t1 t2, body = t1 +:+ t2 → t2 ≠ EmptyString →
     match Re.lit ";" (t2 +:+ rest) with
     | Some s' => k s'
     | None => None
     end = None) →
  (∀ s', is_Some (k s')) →
  all_chars (Re.in_charset (Re.NotChar ";")) body = true.
Proof.
  intros Hmin Hk. induction body as [|a body IH]; simpl; [done|].
  rewrite IH.
  - rewrite andb_true_r. apply negb_true_iff, Ascii.eqb_neq. intros ->.
    specialize (Hmin EmptyString (String ";" body) eq_refl ltac:(done)).
    simpl in Hmin. destruct (Hk (body +:+ rest)) as [y Hy].
    by rewrite Hy in Hmin.
  - intros t1 t2 -> Hne. by apply (Hmin (String a t1) t2).
Qed.

(** Conversely, a match of the statement pattern is a statement, which ends
    at the first semicolon after the table name. *)
Lemma statement_match_inv (keywords s : string) (m : Re.Match) :
  Re.match_ (statement_pattern keywords) s = Some m →
  ∃ kw ws schema table body rest,
    statement_parts keywords kw ws schema table body
    ∧ s = statement_text kw ws schema table body +:+ rest
    ∧ m = statement_match kw ws schema table body.
Proof.
  unfold Re.match_, statement_pattern, quote_lit, ident_chars.
  cbn [Re.exec]. intros H.
  destruct (Re.lit keywords s) as [s1|] eqn:E1; [|done].
  apply lit_sound in E1 as (kw & -> & Hkw).
  apply max_repeat_sound in H as (ws & r1 & -> & Hws & Hws1 & H).
  cbv beta in H.
  destruct (Re.lit _ r1) as [s2|] eqn:E2; [|done].
  apply lit_sound in E2 as (q1 & -> & ->%lit_eq_symbol); [|done].
  apply max_repeat_sound in H as (schema & r2 & -> & Hs & Hs1 & H).
  cbv beta in H.
  destruct (Re.lit _ r2) as [s3|] eqn:E3; [|done].
  apply lit_sound in E3 as (q2 & -> & ->%lit_eq_symbol); [|done].
  destruct (Re.lit _ s3) as [s4|] eqn:E4; [|done].
  apply lit_sound in E4 as (q3 & -> & ->%lit_eq_symbol); [|done].
  destruct (Re.lit _ s4) as [s5|] eqn:E5; [|done].
  apply lit_sound in E5 as (q4 & -> & ->%lit_eq_symbol); [|done].
  apply max_repeat_sound in H as (table & r3 & -> & Ht & Ht1 & H).
  cbv beta in H.
  destruct (Re.lit _ r3) as [s6|] eqn:E6; [|done].
  apply lit_sound in E6 as (q5 & -> & ->%lit_eq_symbol); [|done].
  apply min_repeat_minimal in H as (body & r4 & -> & _ & H & Hmin).
  apply lazy_body_no_semicolon in Hmin as Hb; [|by eexists].
  destruct (Re.lit _ r4) as [rest|] eqn:E7; [|done].
  apply lit_sound in E7 as (q6 & -> & ->%lit_eq_symbol); [|done].
  injection H as <-.
  exists kw, ws, schema, table, body, rest. split; [done|].
  rewrite statement_text_app. split; [done|].
  unfold statement_match.
  rewrite !consumed_app.
  change (String dquote EmptyString) with quote.
  rewrite <- statement_text_app, consumed_app. done.
Qed.

Lemma finditer_elem_match (r : Re.regex) (s : string) (m : Re.Match) :
  1 ≤ min_length r → m ∈ Re.finditer r s →
  ∃ pre rest, s = pre +:+ rest ∧ Re.match_ r rest = Some m.
Proof.
  intros Hr Hin. pose proof (finditer_scanned r s Hr) as Hs.
  induction Hs as [s Hend|gap m' rest ms Hgap Hm Hs IH].
  - by apply elem_of_nil in Hin.
  - apply elem_of_cons in Hin as [->|Hin].
    + by exists gap, (Re.whole m' +:+ rest).
    + destruct (IH Hin) as (pre & rest' & -> & Hm').
      exists (gap +:+ Re.whole m' +:+ pre), rest'.
      by rewrite !string_app_assoc.
Qed.

Lemma statement_pattern_min_length (keywords : string) :
  1 ≤ min_length (statement_pattern keywords).
Proof. simpl. lia. Qed.

(** Every match of a scan for statements is a statement of the text. *)
Lemma statement_matches (keywords sql_text : string) (m : Re.Match) :
  m ∈ Re.finditer (statement_pattern keywords) sql_text →
  ∃ kw ws schema table body pre post,
    statement_parts keywords kw ws schema table body
    ∧ m = statement_match kw ws schema table body
    ∧ sql_text = pre +:+ statement_text kw ws schema table body +:+ post.
Proof.
  intros Hin.
  apply finditer_elem_match in Hin as (pre & rest & -> & Hm);
    [|apply statement_pattern_min_length].
  apply statement_match_inv in Hm
    as (kw & ws & schema & table & body & post & Hparts & -> & ->).
  by exists kw, ws, schema, table, body, pre, post.
Qed.

(** ** Scripts of statements *)

Lemma finditer_statement (keywords kw ws schema table body rest : string) :
  statement_parts keywords kw ws schema table body →
  Re.finditer (statement_pattern keywords)
    (statement_text kw ws schema table body +:+ rest)
  = statement_match kw ws schema table body
    :: Re.finditer (statement_pattern keywords) rest.
Proof.
  intros Hparts.
  pose proof (statement_match_exact _ _ _ _ _ _ rest Hparts) as Hm.
  destruct (finditer_match_app _ _ _ Hm) as (rest' & Hs & ->).
  { eapply match_nonempty; [apply statement_pattern_min_length|done]. }
  simpl in Hs. by apply String.app_inj in Hs as <-.
Qed.

Lemma finditer_empty_text (keywords : string) :
  Re.finditer (statement_pattern keywords) EmptyString = [].
Proof.
  unfold Re.finditer. simpl.
  destruct (Re.match_ _ EmptyString) as [m|] eqn:E; [|done].
  apply match_nonempty in E as Hlen; [|apply statement_pattern_min_length].
  apply match_sound in E as (rest & Hs & _).
  destruct (Re.whole m); [simpl in Hlen; lia|done].
Qed.

(** A script is scanned statement by statement, when no statement can start
    with the line break. *)
Lemma finditer_script (keywords : string) (ds : list Statement) :
  (∀ s, Re.match_ (statement_pattern keywords) (String newline s) = None) →
  Forall (well_formed keywords) ds →
  Re.finditer (statement_pattern keywords) (script ds) = match_of <$> ds.
Proof.
  intros Hnl Hds. unfold script, join.
  induction Hds as [|d ds Hd Hds IH]; [apply finditer_empty_text|].
  destruct ds as [|d' ds].
  - simpl. rewrite <- (string_app_nil_r (render d)).
    unfold render. rewrite finditer_statement by done.
    by rewrite finditer_empty_text.
  - change (String.concat nl (render <$> d :: d' :: ds))
      with (render d +:+ nl +:+ String.concat nl (render <$> d' :: ds)).
    unfold render at 1. rewrite finditer_statement by done.
    unfold nl at 1. rewrite string_app_cons, string_app_nil_l.
    rewrite finditer_no_match by apply Hnl. by rewrite IH.
Qed.

Lemma create_not_at_newline (s : string) :
  Re.match_ (statement_pattern "CREATE TABLE") (String newline s) = None.
Proof. by vm_compute. Qed.

Lemma alter_not_at_newline (s : string) :
  Re.match_ (statement_pattern "ALTER TABLE") (String newline s) = None.
Proof. by vm_compute. Qed.

Lemma filter_fmap_list {A B : Type} (f : A → B) (P : B → Prop)
    `{!∀ x, Decision (P x)} (l : list A) :
  filter P (f <$> l) = f <$> filter (λ x, P (f x)) l.
Proof.
  induction l as [|x l IH]; [done|].
  rewrite fmap_cons, !filter_cons.
  case_decide; [rewrite fmap_cons|]; by rewrite IH.
Qed.

Lemma statements_for_script (t : string) (ds : list Statement) :
  statements_for t (match_of <$> ds)
  = render <$> filter (λ d, st_table d = t) ds.
Proof.
  unfold statements_for. rewrite filter_fmap_list, <- list_fmap_compose.
  done.
Qed.

(** ** Further facts about [parse_constraints] *)

Lemma parse_constraints_lookup (sql_text : string)
    (tables : gmap string TableRecord) (t : string) :
  (parse_constraints sql_text tables).2 !! t
  = apply_statements (statements_for t (Re.finditer alter_pattern sql_text))
    <$> tables !! t.
Proof. simpl. apply alter_steps_lookup. Qed.

Lemma add_keys_NoDup (cols pks : list string) :
  NoDup pks → NoDup (fold_left add_key cols pks).
Proof.
  intros Hnd. rewrite add_keys_first_occurrences. apply NoDup_app.
  split_and!; [done| |apply NoDup_first_occurrences].
  intros x Hx. rewrite elem_of_first_occurrences, list_elem_of_filter. tauto.
Qed.

Lemma add_keys_elem_of (cols pks : list string) (c : string) :
  c ∈ fold_left add_key cols pks ↔ c ∈ pks ∨ (c ≠ EmptyString ∧ c ∈ cols).
Proof.
  rewrite add_keys_first_occurrences, elem_of_app,
    elem_of_first_occurrences, list_elem_of_filter.
  destruct (decide (c ∈ pks)); tauto.
Qed.

Lemma filter_none {A : Type} (P : A → Prop) `{!∀ x, Decision (P x)}
    (l : list A) :
  (∀ x, x ∈ l → ¬ P x) → filter P l = [].
Proof.
  induction l as [|x l IH]; intros Hl; [done|].
  rewrite filter_cons_False by (apply Hl; left).
  apply IH. intros y Hy. apply Hl. by right.
Qed.

(** Adding the same columns a second time changes nothing. *)
Lemma add_keys_twice (cols pks : list string) :
  fold_left add_key cols (fold_left add_key cols pks)
  = fold_left add_key cols pks.
Proof.
  rewrite (add_keys_first_occurrences cols (fold_left add_key cols pks)).
  rewrite filter_none; [by rewrite app_nil_r|].
  intros c Hc [Hne Hnot]. apply Hnot, add_keys_elem_of. tauto.
Qed.

(** ** Further facts about the [str] methods *)

Lemma all_chars_lstrip (p q : ascii → bool) (s : string) :
  all_chars q s = true → all_chars q (lstrip p s) = true.
Proof.
  induction s as [|a s IH]; simpl; [done|].
  intros [Ha Hs]%andb_true_iff. destruct (p a); [by apply IH|].
  simpl. by rewrite Ha, Hs.
Qed.

Lemma all_chars_rstrip (p q : ascii → bool) (s : string) :
  all_chars q s = true → all_chars q (rstrip p s) = true.
Proof.
  induction s as [|a s IH]; simpl; [done|].
  intros [Ha Hs]%andb_true_iff. specialize (IH Hs).
  destruct (rstrip p s) as [|b t]; [destruct (p a); simpl; by rewrite ?Ha|].
  simpl in *. by rewrite Ha, IH.
Qed.

Lemma all_chars_strip_with (p q : ascii → bool) (s : string) :
  all_chars q s = true → all_chars q (strip_with p s) = true.
Proof. intros Hs. by apply all_chars_rstrip, all_chars_lstrip. Qed.

Lemma lstrip_head (p : ascii → bool) (s : string) :
  match head_char (lstrip p s) with Some a => p a = false | None => True end.
Proof.
  induction s as [|a s IH]; simpl; [done|]. by destruct (p a) eqn:E.
Qed.

Lemma rstrip_head (p : ascii → bool) (s : string) :
  head_char (rstrip p s) = None ∨ head_char (rstrip p s) = head_char s.
Proof.
  destruct s as [|a s]; simpl; [by left|].
  destruct (rstrip p s); [destruct (p a)|]; simpl; auto.
Qed.

Lemma rstrip_last (p : ascii → bool) (s : string) :
  match last_char (rstrip p s) with Some a => p a = false | None => True end.
Proof.
  induction s as [|a s IH]; simpl; [done|].
  destruct (rstrip p s) as [|b t] eqn:E.
  - destruct (p a) eqn:Ea; simpl; done.
  - simpl in *. by destruct (last_char t).
Qed.

(** What [strip_with p] returns neither starts nor ends with a character
    of [p]. *)
Lemma strip_with_ends (p : ascii → bool) (s : string) :
  match head_char (strip_with p s) with Some a => p a = false | None => True end
  ∧ match last_char (strip_with p s) with Some a => p a = false | None => True end.
Proof.
  split; [|apply rstrip_last]. unfold strip_with.
  destruct (rstrip_head p (lstrip p s)) as [->| ->]; [done|].
  apply lstrip_head.
Qed.

Lemma lstrip_id (p : ascii → bool) (s : string) :
  match head_char s with Some a => p a = false | None => True end →
  lstrip p s = s.
Proof. destruct s as [|a s]; simpl; [done|]. by intros ->. Qed.

Lemma rstrip_id (p : ascii → bool) (s : string) :
  match last_char s with Some a => p a = false | None => True end →
  rstrip p s = s.
Proof.
  induction s as [|a s IH]; simpl; [done|].
  destruct (last_char s) as [b|] eqn:E.
  - intros Hb. rewrite IH by done. destruct s; [done|done].
  - destruct s as [|c s]; [|simpl in E; by destruct (last_char s)].
    simpl. by intros ->.
Qed.

Lemma last_char_app_single (s : string) (b : ascii) :
  last_char (s +:+ String b EmptyString) = Some b.
Proof. induction s as [|a s IH]; simpl; [done|]. by rewrite IH. Qed.

Lemma split_all_chars (p : ascii → bool) (sep : ascii) (s : string) :
  all_chars p s = true → Forall (λ w, all_chars p w = true) (split sep s).
Proof.
  induction s as [|a s IH]; simpl; [by repeat constructor|].
  intros [Ha Hs]%andb_true_iff. specialize (IH Hs).
  destruct (Ascii.eqb a sep); [by constructor|].
  destruct (split sep s) as [|w ws]; [by repeat constructor; simpl; rewrite Ha|].
  apply Forall_cons in IH as [Hw Hws]. constructor; [|done].
  simpl. by rewrite Ha, Hw.
Qed.

Lemma split_no_sep (sep : ascii) (s : string) :
  Forall (λ w, all_chars (Re.in_charset (Re.NotChar sep)) w = true)
         (split sep s).
Proof.
  induction s as [|a s IH]; simpl; [by repeat constructor|].
  destruct (Ascii.eqb a sep) eqn:E; [by constructor|].
  destruct (split sep s) as [|w ws]; [repeat constructor; simpl; by rewrite E|].
  apply Forall_cons in IH as [Hw Hws]. constructor; [|done].
  simpl. by rewrite E, Hw.
Qed.

Lemma strip_column_chars (q : ascii → bool) (w : string) :
  all_chars q w = true → all_chars q (strip_column w) = true.
Proof.
  intros Hw. unfold strip_column, strip_chars, strip.
  by do 2 apply all_chars_strip_with.
Qed.

Lemma strip_column_ends (w : string) :
  head_char (strip_column w) ≠ Some dquote
  ∧ last_char (strip_column w) ≠ Some dquote.
Proof.
  unfold strip_column, strip_chars.
  destruct (strip_with_ends
              (λ a, existsb (Ascii.eqb a)
                      (String.list_ascii_of_string (String dquote EmptyString)))
              (strip w)) as [Hh Hl].
  split.
  - destruct (head_char _) as [a|]; [|done]. by intros [= ->].
  - destruct (last_char _) as [a|]; [|done]. by intros [= ->].
Qed.

(** The columns read from the [PRIMARY KEY] clauses of a statement. *)
Lemma primary_key_tokens_clean (stmt c : string) :
  c ∈ primary_key_tokens stmt → c ≠ EmptyString → clean_column c.
Proof.
  unfold primary_key_tokens. rewrite list_elem_of_bind.
  intros (pm & Hc & Hpm) Hne.
  apply primary_key_matches_shape in Hpm
    as (kw1 & ws1 & kw2 & ws2 & cols & _ & _ & _ & _ & _ & _ & Hcols & _ & Hg).
  rewrite Hg in Hc. unfold column_list in Hc.
  apply list_elem_of_fmap in Hc as (w & -> & Hw).
  split; [done|]. split_and!.
  - apply strip_column_chars.
    by eapply Forall_forall in Hw; [|apply split_no_sep].
  - apply strip_column_chars.
    by eapply Forall_forall in Hw; [|by apply split_all_chars].
  - apply strip_column_ends.
  - apply strip_column_ends.
Qed.

(** ** Further facts about [extract_tables_and_ddl] and [to_serializable] *)

Lemma extract_is_Some (sql_text t : string) :
  is_Some (extract_tables_and_ddl sql_text !! t)
  ↔ ∃ m, m ∈ Re.finditer create_pattern sql_text ∧ Re.group "table" m = t.
Proof.
  unfold extract_tables_and_ddl. rewrite create_steps_lookup. split.
  - destruct (last _) as [m|] eqn:E; [|by rewrite lookup_empty; intros []].
    intros _. exists m.
    by apply last_Some_elem_of, list_elem_of_filter in E as [? ?].
  - intros (m & Hin & Ht).
    destruct (last _) as [m'|] eqn:E; [done|].
    apply last_None in E.
    assert (m ∈ filter (λ m0, Re.group "table" m0 = t)
                  (Re.finditer create_pattern sql_text)) as Hf
      by by apply list_elem_of_filter.
    rewrite E in Hf. by apply elem_of_nil in Hf.
Qed.

Lemma pipeline_is_Some (sql_text t : string) :
  is_Some ((parse_constraints sql_text (extract_tables_and_ddl sql_text)).2 !! t)
  ↔ ∃ m, m ∈ Re.finditer create_pattern sql_text ∧ Re.group "table" m = t.
Proof.
  rewrite parse_constraints_lookup, <- extract_is_Some.
  by rewrite fmap_is_Some.
Qed.

Lemma length_sorted (l : list string) : length (sorted l) = length l.
Proof. unfold sorted. by rewrite merge_sort_Permutation. Qed.

Lemma length_to_serializable (items : gmap string TableRecord) :
  length (to_serializable items) = size items.
Proof.
  rewrite <- (Forall2_length _ _ _ (to_serializable_keys items)).
  rewrite length_sorted. unfold keys.
  by rewrite length_fmap, length_map_to_list.
Qed.

Lemma to_serializable_nil (items : gmap string TableRecord) :
  to_serializable items = [] ↔ items = ∅.
Proof.
  rewrite <- map_size_empty_iff, <- length_to_serializable.
  by destruct (to_serializable items).
Qed.

Lemma last_char_app (s t : string) (b : ascii) :
  last_char t = Some b → last_char (s +:+ t) = Some b.
Proof. intros Ht. induction s as [|a s IH]; simpl; [done|]. by rewrite IH. Qed.

Lemma letter_A_not_space (a : ascii) :
  same_letter "A" a = true → isspace a = false.
Proof. destruct a as [[] [] [] [] [] [] [] []]; by vm_compute. Qed.

(** An [ALTER TABLE] statement starts with a letter and ends with a
    semicolon: [strip] leaves it as it is. *)
Lemma strip_alter_statement (kw ws schema table body : string) :
  statement_parts "ALTER TABLE" kw ws schema table body →
  strip (statement_text kw ws schema table body)
  = statement_text kw ws schema table body.
Proof.
  intros (Hkw & _). unfold strip, strip_with.
  destruct kw as [|a kw]; [done|]. simpl in Hkw.
  apply andb_true_iff in Hkw as [Ha _].
  rewrite lstrip_id by (simpl; by apply letter_A_not_space).
  apply rstrip_id. unfold statement_text.
  by rewrite (last_char_app _ _ ";"%char) by (by repeat apply last_char_app).
Qed.

Lemma statement_text_nonempty (keywords kw ws schema table body : string) :
  statement_parts keywords kw ws schema table body →
  statement_text kw ws schema table body ≠ EmptyString.
Proof.
  intros (_ & _ & Hws & _) E. apply (f_equal String.length) in E.
  unfold statement_text in E. rewrite !string_length_app in E. simpl in E. lia.
Qed.

Lemma join_nonempty (sep x : string) (l : list string) :
  x ≠ EmptyString → join sep (x :: l) ≠ EmptyString.
Proof.
  unfold join. destruct l as [|y l]; simpl; [done|].
  destruct x; [done|]. by intros _.
Qed.

(** The statements recorded for a table by the pipeline. *)
Lemma alter_statements_for (sql_text t stmt : string) :
  stmt ∈ statements_for t (Re.finditer alter_pattern sql_text) →
  ∃ kw ws schema body,
    statement_parts "ALTER TABLE" kw ws schema t body
    ∧ stmt = statement_text kw ws schema t body.
Proof.
  unfold statements_for. rewrite list_elem_of_fmap.
  intros (m & -> & [Ht Hin]%list_elem_of_filter).
  apply (statement_matches "ALTER TABLE") in Hin
    as (kw & ws & schema & table & body & pre & post & Hparts & -> & ->).
  change (table = t) in Ht. subst table. by exists kw, ws, schema, body.
Qed.

Lemma strip_statements_for (sql_text t : string) :
  strip <$> statements_for t (Re.finditer alter_pattern sql_text)
  = statements_for t (Re.finditer alter_pattern sql_text).
Proof.
  rewrite <- (list_fmap_id (statements_for _ _)) at 2.
  apply Forall_fmap_ext, Forall_forall. intros stmt Hin.
  apply alter_statements_for in Hin as (kw & ws & schema & body & Hp & ->).
  by apply strip_alter_statement.
Qed.

Lemma pipeline_constraints_raw (sql_text t : string) (item : TableRecord) :
  (parse_constraints sql_text (extract_tables_and_ddl sql_text)).2 !! t
  = Some item →
  constraints_raw item
  = statements_for t (Re.finditer alter_pattern sql_text).
Proof.
  intros (m & _ & _ & ->)%pipeline_lookup. by rewrite apply_statements_eq.
Qed.

(** *** Column lists *)

Lemma all_chars_impl (p p' : ascii → bool) (s : string) :
  (∀ a, p a = true → p' a = true) →
  all_chars p s = true → all_chars p' s = true.
Proof.
  intros Hpp'. induction s as [|a s IH]; simpl; [done|].
  intros [Ha Hs]%andb_true_iff. by rewrite (Hpp' a Ha), IH.
Qed.

Lemma lstrip_all (p : ascii → bool) (s : string) :
  all_chars p s = true → lstrip p s = EmptyString.
Proof.
  induction s as [|a s IH]; simpl; [done|].
  intros [-> Hs]%andb_true_iff. by apply IH.
Qed.

Lemma rstrip_all (p : ascii → bool) (s : string) :
  all_chars p s = true → rstrip p s = EmptyString.
Proof.
  induction s as [|a s IH]; simpl; [done|].
  intros [-> Hs]%andb_true_iff. by rewrite IH.
Qed.

Lemma lstrip_app_all (p : ascii → bool) (pre s : string) :
  all_chars p pre = true → lstrip p (pre +:+ s) = lstrip p s.
Proof.
  induction pre as [|a pre IH]; simpl; [done|].
  intros [-> Hs]%andb_true_iff. by apply IH.
Qed.

Lemma rstrip_app_all (p : ascii → bool) (s post : string) :
  all_chars p post = true → rstrip p (s +:+ post) = rstrip p s.
Proof.
  intros Hpost. induction s as [|a s IH].
  - rewrite string_app_nil_l. by apply rstrip_all.
  - rewrite string_app_cons. simpl. by rewrite IH.
Qed.

Lemma head_char_app (s t : string) :
  head_char (s +:+ t)
  = match head_char s with Some a => Some a | None => head_char t end.
Proof. by destruct s. Qed.

Lemma last_char_app_cases (s t : string) :
  last_char (s +:+ t)
  = match last_char t with Some b => Some b | None => last_char s end.
Proof.
  induction s as [|a s IH].
  - rewrite string_app_nil_l. simpl. by destruct (last_char t).
  - rewrite string_app_cons. simpl. rewrite IH.
    destruct (last_char t); [done|]. by destruct (last_char s).
Qed.

Lemma ends_not_app (p : ascii → bool) (s t : string) :
  ends_not p s → ends_not p t → ends_not p (s +:+ t).
Proof.
  unfold ends_not. rewrite head_char_app, last_char_app_cases.
  intros [Hs1 Hs2] [Ht1 Ht2]. split.
  - by destruct (head_char s).
  - by destruct (last_char t).
Qed.

Lemma ends_not_all (p p' : ascii → bool) (s : string) :
  (∀ a, p' a = true → p a = false) →
  all_chars p' s = true → ends_not p s.
Proof.
  intros Hpp'. induction s as [|a s IH]; [done|]. simpl.
  intros [Ha Hs]%andb_true_iff. destruct (IH Hs) as [_ Hl].
  split; simpl; [by apply Hpp'|].
  destruct (last_char s); [done|by apply Hpp'].
Qed.

Lemma strip_with_id (p : ascii → bool) (s : string) :
  ends_not p s → strip_with p s = s.
Proof.
  intros [Hh Hl]. unfold strip_with. rewrite lstrip_id by done.
  by apply rstrip_id.
Qed.

(** Stripping removes the padding around a text whose ends are not to be
    stripped. *)
Lemma strip_with_padded (p : ascii → bool) (pre mid post : string) :
  all_chars p pre = true → all_chars p post = true → ends_not p mid →
  strip_with p (pre +:+ mid +:+ post) = mid.
Proof.
  intros Hpre Hpost Hmid. unfold strip_with. rewrite lstrip_app_all by done.
  destruct mid as [|a mid].
  - rewrite string_app_nil_l, lstrip_all by done. done.
  - rewrite lstrip_id by (simpl; apply Hmid).
    rewrite rstrip_app_all by done. apply rstrip_id, Hmid.
Qed.

Lemma strip_chars_dquote (s : string) :
  strip_chars (String dquote EmptyString) s
  = strip_with (λ a, is_dquote a || false) s.
Proof. done. Qed.

(** A well-formed column is read back as its name. *)
Lemma strip_column_text (c : Column) :
  column_ok c → strip_column (column_text c) = col_name c.
Proof.
  intros (Hpre & Hpost & Hopen & Hclose & _ & Hsp & Hdq).
  unfold strip_column, column_text, strip.
  assert (∀ a, is_dquote a = true → isspace a = false) as Hds.
  { intros a ->%Ascii.eqb_eq. done. }
  replace (col_pre c +:+ col_open c +:+ col_name c +:+ col_close c
           +:+ col_post c)
    with (col_pre c +:+ (col_open c +:+ col_name c +:+ col_close c)
          +:+ col_post c) by (by rewrite !string_app_assoc).
  rewrite strip_with_padded; [|done|done|].
  - rewrite strip_chars_dquote. apply strip_with_padded.
    + eapply all_chars_impl, Hopen. by intros a ->.
    + eapply all_chars_impl, Hclose. by intros a ->.
    + destruct Hdq as [Hh Hl]. split.
      * destruct (head_char _); [by rewrite Hh|done].
      * destruct (last_char _); [by rewrite Hl|done].
  - apply ends_not_app; [by eapply ends_not_all|].
    apply ends_not_app; [done|by eapply ends_not_all].
Qed.

Lemma column_text_no_comma (c : Column) :
  column_ok c →
  all_chars (Re.in_charset (Re.NotChar ",")) (column_text c) = true.
Proof.
  intros (Hpre & Hpost & Hopen & Hclose & Hname & _).
  assert (∀ a, isspace a = true →
               Re.in_charset (Re.NotChar ",") a = true) as Hsp.
  { intros a Ha. simpl. destruct (Ascii.eqb_spec a ",") as [->|]; done. }
  assert (∀ a, is_dquote a = true →
               Re.in_charset (Re.NotChar ",") a = true) as Hdq.
  { by intros a ->%Ascii.eqb_eq. }
  unfold column_text. rewrite !all_chars_app, Hname.
  rewrite (all_chars_impl _ _ _ Hsp Hpre), (all_chars_impl _ _ _ Hsp Hpost).
  by rewrite (all_chars_impl _ _ _ Hdq Hopen), (all_chars_impl _ _ _ Hdq Hclose).
Qed.

Lemma split_single (sep : ascii) (w : string) :
  all_chars (Re.in_charset (Re.NotChar sep)) w = true → split sep w = [w].
Proof.
  induction w as [|a w IH]; simpl; [done|].
  intros [Ha Hw]%andb_true_iff. apply negb_true_iff in Ha. rewrite Ha.
  by rewrite IH.
Qed.

Lemma split_app (sep : ascii) (w s : string) :
  all_chars (Re.in_charset (Re.NotChar sep)) w = true →
  split sep (w +:+ String sep s) = w :: split sep s.
Proof.
  induction w as [|a w IH]; simpl.
  - intros _. by rewrite Ascii.eqb_refl.
  - intros [Ha Hw]%andb_true_iff. apply negb_true_iff in Ha.
    rewrite Ha, IH by done. done.
Qed.

(** Splitting undoes joining when no element holds the separator. *)
Lemma split_join (sep : ascii) (l : list string) :
  l ≠ [] →
  Forall (λ w, all_chars (Re.in_charset (Re.NotChar sep)) w = true) l →
  split sep (join (String sep EmptyString) l) = l.
Proof.
  intros Hne Hl. unfold join.
  induction Hl as [|w l Hw Hl IH]; [done|]. clear Hne.
  destruct l as [|w' l]; simpl.
  - by apply split_single.
  - rewrite string_app_cons, string_app_nil_l, split_app by done.
    f_equal. by apply IH.
Qed.

(** No match at all: no piece of the text is a statement. *)
Lemma finditer_nil_iff (keywords sql_text : string) :
  Re.finditer (statement_pattern keywords) sql_text = []
  ↔ ¬ ∃ kw ws schema table body pre post,
        statement_parts keywords kw ws schema table body
        ∧ sql_text = pre +:+ statement_text kw ws schema table body +:+ post.
Proof.
  split.
  - intros E (kw & ws & schema & table & body & pre & post & Hparts & ->).
    pose proof (finditer_scanned (statement_pattern keywords)
                  (pre +:+ statement_text kw ws schema table body +:+ post)
                  (statement_pattern_min_length keywords)) as Hscan.
    rewrite E in Hscan. inversion Hscan as [s Hnone Hs|]; subst.
    specialize (Hnone pre _ eq_refl).
    by rewrite (statement_match_exact keywords) in Hnone.
  - intros Hno. destruct (Re.finditer _ _) as [|m ms] eqn:E; [done|].
    destruct Hno.
    assert (m ∈ Re.finditer (statement_pattern keywords) sql_text) as Hin
      by (rewrite E; left).
    apply statement_matches in Hin
      as (kw & ws & schema & table & body & pre & post & Hparts & _ & ->).
    by exists kw, ws, schema, table, body, pre, post.
Qed.

Lemma add_keys_nil (cols : list string) :
  fold_left add_key cols []
  = first_occurrences (filter (λ c, c ≠ EmptyString) cols).
Proof.
  rewrite add_keys_first_occurrences. simpl. f_equal.
  apply list_filter_iff. intros c. rewrite elem_of_nil. tauto.
Qed.

(** The registry of the pipeline, entry by entry. *)
Lemma pipeline_entry (sql_text t : string) :
  (parse_constraints sql_text (extract_tables_and_ddl sql_text)).2 !! t
  = (λ m, apply_statements
            (statements_for t (Re.finditer alter_pattern sql_text))
            (created m))
    <$> last (filter (λ m, Re.group "table" m = t)
                (Re.finditer create_pattern sql_text)).
Proof.
  rewrite parse_constraints_lookup. unfold extract_tables_and_ddl.
  rewrite create_steps_lookup, lookup_empty. by destruct (last _).
Qed.

(** *** The output record of a registry entry *)

Lemma to_serializable_lookup (items : gmap string TableRecord) (k : string)
    (item : TableRecord) :
  items !! k = Some item →
  ∃ i, sorted (keys items) !! i = Some k
       ∧ to_serializable items !! i = Some (serialize_item item).
Proof.
  intros Hitem.
  assert (k ∈ sorted (keys items)) as Hin.
  { apply elem_of_sorted, elem_of_keys. by eexists. }
  apply list_elem_of_lookup in Hin as [i Hi].
  destruct (Forall2_lookup_l _ _ _ _ _ (to_serializable_keys items) Hi)
    as (o & Ho & item' & Hitem' & ->).
  simplify_eq. by exists i.
Qed.

(** Stripping an entry gives its piece, and every string is such an
    entry. *)
Lemma strip_entry (e : Entry) : entry_ok e → strip (entry_text e) = en_piece e.
Proof. intros (Hl & Hr & He). by apply strip_with_padded. Qed.

Lemma strip_entries (es : list Entry) :
  Forall entry_ok es → strip <$> (entry_text <$> es) = en_piece <$> es.
Proof.
  intros Hes. rewrite <- list_fmap_compose. apply Forall_fmap_ext.
  eapply Forall_impl; [exact Hes|]. intros e He. by apply strip_entry.
Qed.

Lemma entry_exists (s : string) : ∃ e, entry_ok e ∧ s = entry_text e.
Proof.
  destruct (strip_with_decompose isspace s) as (l & r & Hs & Hl & Hr).
  exists {| en_left := l; en_piece := strip s; en_right := r |}.
  split; [|done]. split_and!; [done..|]. apply strip_with_ends.
Qed.

Lemma entries_exist (l : list string) :
  ∃ es, Forall entry_ok es ∧ l = entry_text <$> es.
Proof.
  induction l as [|s l (es & Hes & ->)]; [by exists []|].
  destruct (entry_exists s) as (e & He & ->).
  exists (e :: es). split; [by constructor|done].
Qed.

(** * Part III: the properties of the specification *)

(** C1. On the four-statement scenario the three stages, run in sequence,
    return exactly two records, [orders] before [users]; [orders] has primary
    keys [id], the one foreign key [user_id -> users(id)] and the dependency
    [users]; [users] has no primary key and no dependency. *)
Theorem C1_example_scenario :
  to_serializable
    (parse_constraints example_sql (extract_tables_and_ddl example_sql)).2 =
  [ {| Out.name := "orders";
       Out.primary_keys := ["id"];
       Out.foreign_keys :=
         [ {| column := "user_id"; references := "users(id)" |} ];
       Out.schema := example_create_orders;
       Out.constraints :=
         example_alter_pk +:+ String newline "  " +:+ example_alter_fk;
       Out.dependencies := ["users"] |};
    {| Out.name := "users";
       Out.primary_keys := [];
       Out.foreign_keys := [];
       Out.schema := example_create_users;
       Out.constraints := EmptyString;
       Out.dependencies := [] |} ].
Proof. vm_compute. reflexivity. Qed.

(** C2. In every registry produced by the pipeline, the primary-key columns
    of a table contain no repetition.  They are obtained from the
    [PRIMARY KEY (cols)] clauses of the statements of the table, in text
    order, by splitting each column list on commas, stripping whitespace and
    then quote characters from each token, dropping the empty tokens and
    keeping each column where it first occurs. *)
Theorem C2_primary_keys_distinct (sql_text t : string) (item : TableRecord) :
  (parse_constraints sql_text (extract_tables_and_ddl sql_text)).2 !! t
  = Some item →
  let clauses :=
    statements_for t (Re.finditer alter_pattern sql_text)
    ≫= Re.finditer primary_key_pattern in
  let tokens :=
    clauses ≫= (λ pm, (λ c, strip_chars (String dquote EmptyString) (strip c))
                        <$> split "," (Re.group "cols" pm)) in
  NoDup (primary_keys item)
  ∧ Forall primary_key_shape clauses
  ∧ primary_keys item
    = first_occurrences (filter (λ c, c ≠ EmptyString) tokens).
Proof.
  intros Hitem clauses tokens.
  apply pipeline_lookup in Hitem as (m & _ & _ & ->).
  rewrite apply_statements_eq. simpl.
  rewrite add_keys_first_occurrences, bind_primary_key_tokens. simpl.
  assert (∀ l : list string,
            filter (λ c, c ≠ EmptyString ∧ c ∉ []) l
            = filter (λ c, c ≠ EmptyString) l) as ->.
  { intros l. apply list_filter_iff. intros c.
    rewrite elem_of_nil. tauto. }
  split_and!; [apply NoDup_first_occurrences| |done].
  apply Forall_forall. intros pm (stmt & Hin & _)%list_elem_of_bind.
  by eapply primary_key_matches_shape.
Qed.

Lemma C2_primary_keys_distinct_witness :
  ∃ item,
    (parse_constraints overlap_sql (extract_tables_and_ddl overlap_sql)).2 !! "t"
    = Some item
    ∧ primary_keys item = ["a"; "b"; "c"]
    ∧ NoDup (primary_keys item)
    ∧ primary_keys item
      = first_occurrences
          (filter (λ c, c ≠ EmptyString)
             ((statements_for "t" (Re.finditer alter_pattern overlap_sql)
               ≫= Re.finditer primary_key_pattern)
              ≫= (λ pm, (λ c, strip_chars (String dquote EmptyString) (strip c))
                          <$> split "," (Re.group "cols" pm)))).
Proof.
  eexists. split; [vm_compute; reflexivity|]. split; [reflexivity|].
  refine ((λ H, conj (proj1 H) (proj2 (proj2 H)))
            (C2_primary_keys_distinct overlap_sql "t" _ _)).
  vm_compute. reflexivity.
Defined.




(** C4. For every registry that stores each record under its name, every
    record of the registry is emitted: the output has one record per key, the
    record of a table carries its name and, as [dependencies], the members of
    the table's set in ascending order, each once.  The output is in
    ascending order of [name]: of two output records the one with the smaller
    name, and only that one, comes first; and every output record is the
    record of a table of the registry. *)
Theorem C4_output_order (items : gmap string TableRecord) :
  keyed items →
  (∀ k item,
     items !! k = Some item →
     ∃ i o,
       to_serializable items !! i = Some o
       ∧ Out.name o = k
       ∧ StronglySorted str_lt (Out.dependencies o)
       ∧ ∀ d, d ∈ Out.dependencies o ↔ d ∈ dependencies item)
  ∧ length (to_serializable items) = size items
  ∧ (∀ i j a b,
       to_serializable items !! i = Some a →
       to_serializable items !! j = Some b →
       (i < j ↔ str_lt (Out.name a) (Out.name b)))
  ∧ (∀ o, o ∈ to_serializable items →
       ∃ item, items !! Out.name o = Some item
         ∧ StronglySorted str_lt (Out.dependencies o)
         ∧ ∀ d, d ∈ Out.dependencies o ↔ d ∈ dependencies item).
Proof.
  intros Hk. split_and!.
  - intros k item Hitem.
    destruct (to_serializable_lookup items k item Hitem) as (i & _ & Ho).
    exists i, (serialize_item item). simpl. split_and!.
    + done.
    + by apply Hk.
    + apply sorted_strict, NoDup_elements.
    + intros d. by rewrite elem_of_sorted, elem_of_elements.
  - apply length_to_serializable.
  - intros i j a b Hi Hj.
    apply (strictly_sorted_index (Out.name <$> to_serializable items)).
    + rewrite to_serializable_names by done. apply sorted_strict, NoDup_keys.
    + by rewrite list_lookup_fmap, Hi.
    + by rewrite list_lookup_fmap, Hj.
  - intros o Ho. apply elem_of_to_serializable in Ho as (k & item & Hitem & ->).
    exists item. simpl. split_and!.
    + by rewrite (Hk _ _ Hitem).
    + apply sorted_strict, NoDup_elements.
    + intros d. by rewrite elem_of_sorted, elem_of_elements.
Qed.

Lemma C4_output_order_witness :
  let items :=
    (parse_constraints order_sql (extract_tables_and_ddl order_sql)).2 in
  keyed items
  ∧ length (to_serializable items) = 2
  ∧ ∃ a b,
      to_serializable items !! 0 = Some a
      ∧ to_serializable items !! 1 = Some b
      ∧ Out.name a = "a" ∧ Out.name b = "b"
      ∧ Out.dependencies a = []
      ∧ Out.dependencies b = ["a"; "z"]
      ∧ (0 < 1 ↔ str_lt (Out.name a) (Out.name b))
      ∧ ∃ item i o,
          items !! "b" = Some item
          ∧ to_serializable items !! i = Some o
          ∧ Out.name o = "b"
          ∧ StronglySorted str_lt (Out.dependencies o)
          ∧ ∀ d, d ∈ Out.dependencies o ↔ d ∈ dependencies item.
Proof.
  intros items.
  assert (keyed items) as Hk.
  { apply (map_Forall_to_list (λ k item, name item = k)).
    vm_compute. repeat constructor. }
  destruct (C4_output_order items Hk) as (Hrec & Hlen & Hord & _).
  split; [exact Hk|]. split; [rewrite Hlen; vm_compute; reflexivity|].
  eexists _, _.
  split; [vm_compute; reflexivity|]. split; [vm_compute; reflexivity|].
  split; [reflexivity|]. split; [reflexivity|].
  split; [reflexivity|]. split; [reflexivity|].
  split; [apply (Hord 0 1); vm_compute; reflexivity|].
  destruct (items !! "b") as [item|] eqn:E.
  - exists item. destruct (Hrec "b" item E) as (i & o & Ho).
    exists i, o. split; [reflexivity|exact Ho].
  - vm_compute in E. discriminate E.
Defined.

(** C5. An [ALTER TABLE] statement whose table is not a key of the registry
    is skipped: the loop body returns the registry as it received it, and
    the whole run gives the result it would give without that statement.
    The statement of [ghost_sql] is matched, names [ghost], and produces no
    entry: the registry and the output stay empty. *)
Theorem C5_orphan_statement_skipped :
  (∀ (tables : gmap string TableRecord) (m : Re.Match),
     tables !! Re.group "table" m = None → alter_step tables m = tables)
  ∧ (∀ (sql_text : string) (tables : gmap string TableRecord)
       (ms1 ms2 : list Re.Match) (m : Re.Match),
       Re.finditer alter_pattern sql_text = ms1 ++ m :: ms2 →
       tables !! Re.group "table" m = None →
       parse_constraints sql_text tables
       = (tt, fold_left alter_step (ms1 ++ ms2) tables))
  ∧ (∃ m, Re.finditer alter_pattern ghost_sql = [m]
          ∧ Re.group "table" m = "ghost" ∧ Re.group "1" m = ghost_sql)
  ∧ extract_tables_and_ddl ghost_sql = ∅
  ∧ parse_constraints ghost_sql (extract_tables_and_ddl ghost_sql) = (tt, ∅)
  ∧ to_serializable
      (parse_constraints ghost_sql (extract_tables_and_ddl ghost_sql)).2 = [].
Proof.
  assert (∀ (tables : gmap string TableRecord) (m : Re.Match),
            tables !! Re.group "table" m = None → alter_step tables m = tables)
    as Hstep.
  { intros tables m Hnone. unfold alter_step. by rewrite Hnone. }
  split_and!.
  - exact Hstep.
  - intros sql_text tables ms1 ms2 m Hms Hnone.
    unfold parse_constraints. rewrite Hms, !fold_left_app. simpl.
    rewrite Hstep; [done|]. by rewrite alter_steps_lookup, Hnone.
  - eexists. split; [vm_compute; reflexivity|]. by vm_compute.
  - by vm_compute.
  - by vm_compute.
  - by vm_compute.
Qed.

Lemma C5_orphan_statement_skipped_witness :
  ∃ m, Re.finditer alter_pattern ghost_sql = [] ++ m :: []
       ∧ (∅ : gmap string TableRecord) !! Re.group "table" m = None
       ∧ parse_constraints ghost_sql ∅ = (tt, fold_left alter_step ([] ++ []) ∅).
Proof.
  eexists. split; [vm_compute; reflexivity|]. split; [reflexivity|].
  refine (proj1 (proj2 C5_orphan_statement_skipped) ghost_sql ∅ [] [] _ _ _).
  - vm_compute. reflexivity.
  - reflexivity.
Defined.

(** C6. When a table name is matched by several [CREATE TABLE] statements,
    the registry binds it to the record built from the last of them alone:
    its [schema_name] and [schema_stmt] come from that statement and the
    other entries are empty, whatever matches came before. *)
Theorem C6_last_create_wins (sql_text : string) (ms1 ms2 : list Re.Match)
    (m : Re.Match) :
  Re.finditer create_pattern sql_text = ms1 ++ m :: ms2 →
  Forall (λ m', Re.group "table" m' ≠ Re.group "table" m) ms2 →
  extract_tables_and_ddl sql_text !! Re.group "table" m
  = Some {| name := Re.group "table" m;
            schema_name := Re.group "schema" m;
            schema_stmt := Re.group "1" m;
            constraints_raw := [];
            primary_keys := [];
            foreign_keys := [];
            dependencies := ∅ |}.
Proof.
  intros Hms Hlast. unfold extract_tables_and_ddl.
  rewrite create_steps_lookup, Hms, filter_app, filter_cons_True by done.
  assert (filter (λ m', Re.group "table" m' = Re.group "table" m) ms2 = [])
    as ->.
  { clear Hms. induction Hlast as [|m' ms2 Hne _ IH]; [done|].
    rewrite filter_cons_False; done. }
  by rewrite last_snoc.
Qed.

Lemma C6_last_create_wins_witness :
  ∃ m1 m2,
    Re.finditer create_pattern duplicate_sql = [m1] ++ m2 :: []
    ∧ Re.group "table" m1 = "t" ∧ Re.group "schema" m1 = "a"
    ∧ Re.group "table" m2 = "t" ∧ Re.group "schema" m2 = "b"
    ∧ extract_tables_and_ddl duplicate_sql !! Re.group "table" m2
      = Some {| name := Re.group "table" m2;
                schema_name := Re.group "schema" m2;
                schema_stmt := Re.group "1" m2;
                constraints_raw := [];
                primary_keys := [];
                foreign_keys := [];
                dependencies := ∅ |}.
Proof.
  eexists _, _. split; [vm_compute; reflexivity|].
  split_and!; [reflexivity..|].
  refine (C6_last_create_wins duplicate_sql [_] [] _ _ _).
  - vm_compute. reflexivity.
  - constructor.
Defined.

(** C7. Every [FOREIGN KEY] clause matched in the statements of a table has
    the form FOREIGN KEY (local) ... REFERENCES Qref_schemaQ.Qref_tableQ
    (ref_cols), and appends one record to [foreign_keys], in text order and
    without removing repetitions.  The [references] of that record is the
    referenced table name, without the schema, followed by the referenced
    columns in parentheses; these columns, like the local columns of
    [column], are split on commas, stripped of whitespace and quotes, and
    joined in their order by a comma and a space. *)
Theorem C7_foreign_key_records (sql_text : string)
    (tables : gmap string TableRecord) (t : string) (item : TableRecord) :
  tables !! t = Some item →
  let clauses :=
    statements_for t (Re.finditer alter_pattern sql_text)
    ≫= Re.finditer foreign_key_pattern in
  let columns := λ text,
    join ", " ((λ c, strip_chars (String dquote EmptyString) (strip c))
               <$> split "," text) in
  Forall foreign_key_shape clauses
  ∧ ∃ item',
      (parse_constraints sql_text tables).2 !! t = Some item'
      ∧ foreign_keys item'
        = foreign_keys item
          ++ ((λ fkm,
                 {| column := columns (Re.group "local" fkm);
                    references :=
                      Re.group "ref_table" fkm +:+ "(" +:+
                      columns (Re.group "ref_cols" fkm) +:+ ")" |})
              <$> clauses).
Proof.
  intros Hitem clauses columns. split.
  - apply Forall_forall. intros fkm (stmt & Hin & _)%list_elem_of_bind.
    by eapply foreign_key_matches_shape.
  - eexists. split.
    + simpl. by rewrite alter_steps_lookup, Hitem.
    + by rewrite apply_statements_eq.
Qed.

Lemma C7_foreign_key_records_witness :
  ∃ item item',
    extract_tables_and_ddl repeated_fk_sql !! "t" = Some item
    ∧ (parse_constraints repeated_fk_sql
         (extract_tables_and_ddl repeated_fk_sql)).2 !! "t" = Some item'
    ∧ foreign_keys item'
      = foreign_keys item
        ++ [ {| column := "a, b"; references := "u(c, d)" |};
             {| column := "a, b"; references := "u(c, d)" |} ].
Proof.
  eexists.
  destruct (C7_foreign_key_records repeated_fk_sql
              (extract_tables_and_ddl repeated_fk_sql) "t" _
              ltac:(vm_compute; reflexivity)) as (_ & item' & Hitem' & Hfk).
  exists item'. split; [reflexivity|]. split; [exact Hitem'|].
  rewrite Hfk. f_equal.
Defined.

(** C8. The output record of a table, which is the one at the position of
    the table's key among the sorted keys, carries in [constraints] the
    entries of [constraints_raw], each without its leading and trailing
    whitespace, joined by a newline and two spaces.  Every entry is some
    whitespace, a piece that neither starts nor ends with a whitespace
    character, and some whitespace; whichever way the entries are cut so,
    [constraints] is the join of the pieces.  It is the empty string when
    there is no entry. *)
Theorem C8_constraints_field (items : gmap string TableRecord) (k : string)
    (item : TableRecord) :
  items !! k = Some item →
  ∃ i o,
    sorted (keys items) !! i = Some k
    ∧ to_serializable items !! i = Some o
    ∧ (∃ es, Forall entry_ok es ∧ constraints_raw item = entry_text <$> es)
    ∧ (∀ es,
         Forall entry_ok es → constraints_raw item = entry_text <$> es →
         Out.constraints o = join (String newline "  ") (en_piece <$> es))
    ∧ (constraints_raw item = [] → Out.constraints o = EmptyString).
Proof.
  intros Hitem.
  destruct (to_serializable_lookup items k item Hitem) as (i & Hi & Ho).
  exists i, (serialize_item item). split_and!; [done..| | |].
  - apply entries_exist.
  - intros es Hes Hraw. simpl. unfold constraints_joined.
    rewrite Hraw, strip_entries by done. by destruct es.
  - intros Hnil. simpl. unfold constraints_joined. by rewrite Hnil.
Qed.

Lemma C8_constraints_field_witness :
  Forall entry_ok padded_entries
  ∧ ∃ i o,
      sorted (keys padded_registry) !! i = Some "t"
      ∧ to_serializable padded_registry !! i = Some o
      ∧ Out.constraints o
        = "x y;" +:+ nl +:+ "  " +:+ nl +:+ "  z".
Proof.
  assert (Forall entry_ok padded_entries) as Hes.
  { repeat constructor. }
  split; [exact Hes|].
  destruct (C8_constraints_field padded_registry "t" _ eq_refl)
    as (i & o & Hi & Ho & _ & Hjoin & _).
  exists i, o. split; [exact Hi|]. split; [exact Ho|].
  exact (Hjoin padded_entries Hes eq_refl).
Defined.

(** C9. [parse_constraints] returns nothing and changes no key of the
    registry; in every record it leaves [name], [schema_name] and
    [schema_stmt] as they were, only appends to [constraints_raw],
    [primary_keys] and [foreign_keys], and only adds to [dependencies]. *)
Theorem C9_parse_constraints_frame (sql_text : string)
    (tables : gmap string TableRecord) :
  (parse_constraints sql_text tables).1 = tt
  ∧ ∀ t,
      match tables !! t, (parse_constraints sql_text tables).2 !! t with
      | Some item, Some item' =>
          name item' = name item
          ∧ schema_name item' = schema_name item
          ∧ schema_stmt item' = schema_stmt item
          ∧ constraints_raw item `prefix_of` constraints_raw item'
          ∧ primary_keys item `prefix_of` primary_keys item'
          ∧ foreign_keys item `prefix_of` foreign_keys item'
          ∧ dependencies item ⊆ dependencies item'
      | None, None => True
      | _, _ => False
      end.
Proof.
  split; [done|]. intros t. simpl. rewrite alter_steps_lookup.
  destruct (tables !! t) as [item|]; simpl; [|done].
  rewrite apply_statements_eq. simpl. split_and!; try done.
  - by apply prefix_app_r.
  - apply add_keys_prefix.
  - by apply prefix_app_r.
  - apply union_subseteq_l.
Qed.

(** C10. On the empty text, and on any text without a match of the
    [CREATE TABLE] pattern, [extract_tables_and_ddl] returns the empty
    registry, [parse_constraints] leaves it empty and [to_serializable]
    returns the empty list.  All three are total functions: there is no
    error to raise. *)
Theorem C10_no_table_no_output :
  (extract_tables_and_ddl EmptyString = ∅
   ∧ parse_constraints EmptyString ∅ = (tt, ∅)
   ∧ to_serializable ∅ = [])
  ∧ ∀ sql_text,
      Re.finditer create_pattern sql_text = [] →
      extract_tables_and_ddl sql_text = ∅
      ∧ parse_constraints sql_text (extract_tables_and_ddl sql_text) = (tt, ∅)
      ∧ to_serializable
          (parse_constraints sql_text (extract_tables_and_ddl sql_text)).2 = [].
Proof.
  assert (to_serializable ∅ = []) as Hser by (vm_compute; reflexivity).
  split; [split_and!; [done| |done]|].
  - unfold parse_constraints. by rewrite alter_steps_empty.
  - intros sql_text Hnone. unfold extract_tables_and_ddl. rewrite Hnone. simpl.
    unfold parse_constraints. rewrite alter_steps_empty. done.
Qed.

Lemma C10_no_table_no_output_witness :
  Re.finditer create_pattern ghost_sql = []
  ∧ extract_tables_and_ddl ghost_sql = ∅
  ∧ parse_constraints ghost_sql (extract_tables_and_ddl ghost_sql) = (tt, ∅)
  ∧ to_serializable
      (parse_constraints ghost_sql (extract_tables_and_ddl ghost_sql)).2 = [].
Proof.
  assert (Re.finditer create_pattern ghost_sql = []) as H
    by (vm_compute; reflexivity).
  split; [exact H|]. exact (proj2 C10_no_table_no_output ghost_sql H).
Defined.
(** * Part IV: further properties of the program *)

(** X1. The keys of the registry returned by [extract_tables_and_ddl] are
    exactly the table names of the [CREATE TABLE] statements found in the
    text. *)
Theorem X1_extract_keys (sql_text t : string) :
  is_Some (extract_tables_and_ddl sql_text !! t)
  ↔ ∃ m, m ∈ Re.finditer create_pattern sql_text ∧ Re.group "table" m = t.
Proof. apply extract_is_Some. Qed.

(** X2. Every record of that registry is stored under its name, has empty
    constraint lists and no dependency, and its [schema_stmt] is a verbatim
    piece of the text: the words CREATE TABLE in any case, whitespace, the
    quoted [schema_name], a dot, the quoted table name, and the text up to
    the first semicolon that follows. *)
Theorem X2_extract_records (sql_text t : string) (item : TableRecord) :
  extract_tables_and_ddl sql_text !! t = Some item →
  name item = t
  ∧ constraints_raw item = [] ∧ primary_keys item = []
  ∧ foreign_keys item = [] ∧ dependencies item = ∅
  ∧ ∃ kw ws body pre post,
      statement_parts "CREATE TABLE" kw ws (schema_name item) t body
      ∧ schema_stmt item = statement_text kw ws (schema_name item) t body
      ∧ sql_text = pre +:+ schema_stmt item +:+ post.
Proof.
  intros (m & Hin & <- & ->)%extract_lookup.
  apply (statement_matches "CREATE TABLE") in Hin
    as (kw & ws & schema & table & body & pre & post & Hparts & -> & ->).
  split_and!; [done..|]. by exists kw, ws, body, pre, post.
Qed.

Lemma X2_extract_records_witness :
  ∃ item,
    extract_tables_and_ddl example_sql !! "users" = Some item
    ∧ name item = "users"
    ∧ ∃ kw ws body pre post,
        statement_parts "CREATE TABLE" kw ws (schema_name item) "users" body
        ∧ schema_stmt item = statement_text kw ws (schema_name item) "users" body
        ∧ example_sql = pre +:+ schema_stmt item +:+ post.
Proof.
  eexists. split; [vm_compute; reflexivity|].
  refine ((λ H, conj (proj1 H) (proj2 (proj2 (proj2 (proj2 (proj2 H))))))
            (X2_extract_records example_sql "users" _ _)).
  vm_compute. reflexivity.
Defined.

(** X3. A script made of well-formed [CREATE TABLE] statements, one per
    line, is read back statement by statement: each table name is bound to
    the record of the last statement that defines it, with the schema and
    the whole text of that statement, and the registry has no other key. *)
Theorem X3_extract_script (ds : list Statement) (t : string) :
  Forall (well_formed "CREATE TABLE") ds →
  extract_tables_and_ddl (script ds) !! t
  = (λ d, new_table (st_table d) (st_schema d) (render d))
    <$> last (filter (λ d, st_table d = t) ds).
Proof.
  intros Hds. unfold extract_tables_and_ddl.
  change create_pattern with (statement_pattern "CREATE TABLE").
  rewrite finditer_script by (apply create_not_at_newline || done).
  rewrite create_steps_lookup, lookup_empty.
  rewrite (filter_fmap_list match_of (λ m, Re.group "table" m = t)).
  rewrite fmap_last. by destruct (last _).
Qed.

Lemma X3_extract_script_witness :
  Forall (well_formed "CREATE TABLE") duplicate_statements
  ∧ extract_tables_and_ddl (script duplicate_statements) !! "t"
    = Some (new_table "t" "b"
              ("create table  " +:+ q "b" +:+ "." +:+ q "t" +:+ " (y text);")).
Proof.
  assert (Forall (well_formed "CREATE TABLE") duplicate_statements) as Hds.
  { repeat constructor; simpl; lia. }
  split; [exact Hds|].
  exact (X3_extract_script duplicate_statements "t" Hds).
Defined.

(** X4. For any registry, [parse_constraints] appends to the
    [constraints_raw] of a table exactly the [ALTER TABLE] statements of the
    text that name it, in text order.  Each of them is a verbatim piece of
    the text: the words ALTER TABLE in any case, whitespace, a quoted schema,
    a dot, the quoted table name and the text up to the first semicolon. *)
Theorem X4_constraints_raw (sql_text : string)
    (tables : gmap string TableRecord) (t : string) (item : TableRecord) :
  tables !! t = Some item →
  ∃ item',
    (parse_constraints sql_text tables).2 !! t = Some item'
    ∧ constraints_raw item'
      = constraints_raw item
        ++ statements_for t (Re.finditer alter_pattern sql_text)
    ∧ Forall (λ stmt,
        ∃ kw ws schema body pre post,
          statement_parts "ALTER TABLE" kw ws schema t body
          ∧ stmt = statement_text kw ws schema t body
          ∧ sql_text = pre +:+ stmt +:+ post)
        (statements_for t (Re.finditer alter_pattern sql_text)).
Proof.
  intros Hitem. eexists. split_and!.
  - simpl. by rewrite alter_steps_lookup, Hitem.
  - by rewrite apply_statements_eq.
  - apply Forall_forall. intros stmt.
    unfold statements_for. rewrite list_elem_of_fmap.
    intros (m & -> & [Ht Hin]%list_elem_of_filter).
    apply (statement_matches "ALTER TABLE") in Hin
      as (kw & ws & schema & table & body & pre & post & Hparts & -> & ->).
    change (table = t) in Ht. subst table.
    by exists kw, ws, schema, body, pre, post.
Qed.

Lemma X4_constraints_raw_witness :
  ∃ item item',
    extract_tables_and_ddl example_sql !! "orders" = Some item
    ∧ (parse_constraints example_sql (extract_tables_and_ddl example_sql)).2
        !! "orders" = Some item'
    ∧ constraints_raw item'
      = constraints_raw item ++ [example_alter_pk; example_alter_fk].
Proof.
  eexists.
  destruct (X4_constraints_raw example_sql
              (extract_tables_and_ddl example_sql) "orders" _
              ltac:(vm_compute; reflexivity)) as (item' & Hitem' & Hraw & _).
  exists item'. split; [reflexivity|]. split; [exact Hitem'|].
  rewrite Hraw. f_equal.
Defined.

(** X5. On a script made of well-formed [ALTER TABLE] statements, one per
    line, [parse_constraints] records every statement whole: the
    [constraints_raw] of a table of the registry receives the texts of the
    statements for that table, in the order of the script. *)
Theorem X5_constraints_of_script (ds : list Statement)
    (tables : gmap string TableRecord) (t : string) (item : TableRecord) :
  Forall (well_formed "ALTER TABLE") ds →
  tables !! t = Some item →
  ∃ item',
    (parse_constraints (script ds) tables).2 !! t = Some item'
    ∧ constraints_raw item'
      = constraints_raw item ++ (render <$> filter (λ d, st_table d = t) ds).
Proof.
  intros Hds Hitem. eexists. split.
  - simpl. by rewrite alter_steps_lookup, Hitem.
  - rewrite apply_statements_eq. simpl.
    change alter_pattern with (statement_pattern "ALTER TABLE").
    rewrite finditer_script by (apply alter_not_at_newline || done).
    by rewrite statements_for_script.
Qed.

Lemma X5_constraints_of_script_witness :
  Forall (well_formed "ALTER TABLE") alter_statements
  ∧ ∃ item',
      (parse_constraints (script alter_statements)
         {[ "t" := new_table "t" "s" "CREATE TABLE" ]}).2 !! "t" = Some item'
      ∧ constraints_raw item'
        = [] ++ (render <$> filter (λ d, st_table d = "t") alter_statements).
Proof.
  assert (Forall (well_formed "ALTER TABLE") alter_statements) as Hds.
  { repeat constructor; simpl; lia. }
  split; [exact Hds|].
  refine (X5_constraints_of_script alter_statements _ "t"
            (new_table "t" "s" "CREATE TABLE") Hds _).
  reflexivity.
Defined.

(** X6. [parse_constraints] keeps the primary keys of any registry free of
    repetition: the columns a table already has stay where they are, and the
    non-empty columns of its [PRIMARY KEY] clauses that are not yet present
    are appended, each once, in the order of their first occurrence. *)
Theorem X6_primary_keys_invariant (sql_text : string)
    (tables : gmap string TableRecord) (t : string) (item : TableRecord) :
  tables !! t = Some item →
  NoDup (primary_keys item) →
  let tokens :=
    statements_for t (Re.finditer alter_pattern sql_text)
    ≫= primary_key_tokens in
  ∃ item',
    (parse_constraints sql_text tables).2 !! t = Some item'
    ∧ NoDup (primary_keys item')
    ∧ primary_keys item'
      = primary_keys item
        ++ first_occurrences
             (filter (λ c, c ≠ EmptyString ∧ c ∉ primary_keys item) tokens).
Proof.
  intros Hitem Hnd tokens. eexists. split_and!.
  - by rewrite parse_constraints_lookup, Hitem.
  - rewrite apply_statements_eq. simpl. by apply add_keys_NoDup.
  - rewrite apply_statements_eq. simpl. apply add_keys_first_occurrences.
Qed.

Lemma X6_primary_keys_invariant_witness :
  ∃ item item',
    preset_registry !! "t" = Some item
    ∧ NoDup (primary_keys item)
    ∧ (parse_constraints overlap_sql preset_registry).2 !! "t" = Some item'
    ∧ NoDup (primary_keys item')
    ∧ primary_keys item' = ["b"; "a"; "c"].
Proof.
  exists (set_primary_keys ["b"] (new_table "t" "s" EmptyString)).
  assert (NoDup
    (primary_keys (set_primary_keys ["b"] (new_table "t" "s" EmptyString))))
    as Hnd0 by apply NoDup_singleton.
  destruct (X6_primary_keys_invariant overlap_sql preset_registry "t" _
              eq_refl Hnd0)
    as (item' & Hitem' & Hnd & Hpk).
  exists item'. split; [reflexivity|]. split; [exact Hnd0|].
  split; [exact Hitem'|]. split; [exact Hnd|].
  rewrite Hpk. vm_compute. reflexivity.
Defined.

(** X7. For any registry, the [dependencies] of a table grow by exactly the
    table names referenced by the [FOREIGN KEY] clauses of its statements.
    The referenced name is recorded whether or not it is a key of the
    registry, the table itself included, and it is not added to the
    registry. *)
Theorem X7_dependencies_unchecked (sql_text : string)
    (tables : gmap string TableRecord) (t : string) (item : TableRecord) :
  tables !! t = Some item →
  let clauses :=
    statements_for t (Re.finditer alter_pattern sql_text)
    ≫= Re.finditer foreign_key_pattern in
  ∃ item',
    (parse_constraints sql_text tables).2 !! t = Some item'
    ∧ dependencies item'
      = dependencies item ∪ list_to_set (Re.group "ref_table" <$> clauses)
    ∧ ∀ fkm, fkm ∈ clauses →
        Re.group "ref_table" fkm ∈ dependencies item'
        ∧ ((parse_constraints sql_text tables).2 !! Re.group "ref_table" fkm
             = None
           ↔ tables !! Re.group "ref_table" fkm = None).
Proof.
  intros Hitem clauses. eexists. split_and!.
  - by rewrite parse_constraints_lookup, Hitem.
  - by rewrite apply_statements_eq.
  - intros fkm Hin. split.
    + rewrite apply_statements_eq. simpl.
      apply elem_of_union_r, elem_of_list_to_set, list_elem_of_fmap.
      by exists fkm.
    + rewrite parse_constraints_lookup. apply fmap_None.
Qed.

Lemma X7_dependencies_unchecked_witness :
  ∃ item item',
    extract_tables_and_ddl dangling_sql !! "t" = Some item
    ∧ (parse_constraints dangling_sql (extract_tables_and_ddl dangling_sql)).2
        !! "t" = Some item'
    ∧ dependencies item' = {[ "t"; "ghost" ]}
    ∧ (parse_constraints dangling_sql (extract_tables_and_ddl dangling_sql)).2
        !! "ghost" = None.
Proof.
  eexists.
  destruct (X7_dependencies_unchecked dangling_sql
              (extract_tables_and_ddl dangling_sql) "t" _
              ltac:(vm_compute; reflexivity)) as (item' & Hitem' & Hdep & _).
  exists item'. split; [reflexivity|]. split; [exact Hitem'|].
  split; [rewrite Hdep; by vm_compute|by vm_compute].
Defined.

(** X8. Running [parse_constraints] a second time on the same text leaves
    [primary_keys] and [dependencies] as the first run made them, and appends
    to [constraints_raw] and [foreign_keys] once more the entries the first
    run appended. *)
Theorem X8_second_run (sql_text : string)
    (tables : gmap string TableRecord) (t : string) (item : TableRecord) :
  tables !! t = Some item →
  ∃ item1 item2 stmts fks,
    (parse_constraints sql_text tables).2 !! t = Some item1
    ∧ (parse_constraints sql_text (parse_constraints sql_text tables).2).2 !! t
      = Some item2
    ∧ constraints_raw item1 = constraints_raw item ++ stmts
    ∧ constraints_raw item2 = constraints_raw item1 ++ stmts
    ∧ foreign_keys item1 = foreign_keys item ++ fks
    ∧ foreign_keys item2 = foreign_keys item1 ++ fks
    ∧ primary_keys item2 = primary_keys item1
    ∧ dependencies item2 = dependencies item1.
Proof.
  intros Hitem. eexists _, _, _, _. split_and!.
  - by rewrite parse_constraints_lookup, Hitem.
  - by rewrite !parse_constraints_lookup, Hitem.
  - by rewrite apply_statements_eq.
  - by rewrite !apply_statements_eq.
  - by rewrite apply_statements_eq.
  - by rewrite !apply_statements_eq.
  - rewrite !apply_statements_eq. simpl. apply add_keys_twice.
  - rewrite !apply_statements_eq. simpl.
    by rewrite <- (assoc_L (∪)), (idemp_L (∪)).
Qed.

Lemma X8_second_run_witness :
  ∃ item1 item2,
    (parse_constraints example_sql (extract_tables_and_ddl example_sql)).2
      !! "orders" = Some item1
    ∧ (parse_constraints example_sql
         (parse_constraints example_sql
            (extract_tables_and_ddl example_sql)).2).2 !! "orders" = Some item2
    ∧ length (foreign_keys item2) = 2
    ∧ primary_keys item2 = primary_keys item1
    ∧ dependencies item2 = dependencies item1.
Proof.
  destruct (X8_second_run example_sql (extract_tables_and_ddl example_sql)
              "orders" _ ltac:(vm_compute; reflexivity))
    as (item1 & item2 & stmts & fks & H1 & H2 & _ & _ & _ & _ & Hpk & Hdep).
  exists item1, item2. split; [exact H1|]. split; [exact H2|].
  split; [|split; [exact Hpk|exact Hdep]].
  vm_compute in H2. injection H2 as <-. reflexivity.
Defined.

(** X9. In every registry produced by the pipeline, each primary-key column
    is a non-empty name without comma, without closing parenthesis and
    without double quote at either end. *)
Theorem X9_primary_key_columns_clean (sql_text t : string)
    (item : TableRecord) :
  (parse_constraints sql_text (extract_tables_and_ddl sql_text)).2 !! t
  = Some item →
  Forall clean_column (primary_keys item).
Proof.
  intros (m & _ & _ & ->)%pipeline_lookup.
  rewrite apply_statements_eq. simpl. apply Forall_forall. intros c.
  rewrite add_keys_elem_of, elem_of_nil, list_elem_of_bind.
  intros [[]|[Hne (stmt & Hc & _)]]. by eapply primary_key_tokens_clean.
Qed.

Lemma X9_primary_key_columns_clean_witness :
  ∃ item,
    (parse_constraints overlap_sql (extract_tables_and_ddl overlap_sql)).2 !! "t"
    = Some item
    ∧ primary_keys item = ["a"; "b"; "c"]
    ∧ Forall clean_column (primary_keys item).
Proof.
  eexists. split; [vm_compute; reflexivity|]. split; [reflexivity|].
  refine (X9_primary_key_columns_clean overlap_sql "t" _ _).
  vm_compute. reflexivity.
Defined.

(** X10. [to_serializable] returns one record per key of the registry, in
    the order of the sorted keys; the record at the position of a key copies
    [name], [primary_keys], [foreign_keys] and [schema_stmt] of the item
    stored under that key without change. *)
Theorem X10_one_record_per_key (items : gmap string TableRecord) :
  length (to_serializable items) = size items
  ∧ ∀ i k,
      sorted (keys items) !! i = Some k →
      ∃ item o,
        items !! k = Some item
        ∧ to_serializable items !! i = Some o
        ∧ Out.name o = name item
        ∧ Out.primary_keys o = primary_keys item
        ∧ Out.foreign_keys o = foreign_keys item
        ∧ Out.schema o = schema_stmt item.
Proof.
  split; [apply length_to_serializable|]. intros i k Hi.
  destruct (Forall2_lookup_l _ _ _ _ _ (to_serializable_keys items) Hi)
    as (o & Ho & item & Hitem & ->).
  by exists item, (serialize_item item).
Qed.

Lemma X10_one_record_per_key_witness :
  let items :=
    (parse_constraints example_sql (extract_tables_and_ddl example_sql)).2 in
  length (to_serializable items) = 2
  ∧ ∃ item o,
      items !! "orders" = Some item
      ∧ to_serializable items !! 0 = Some o
      ∧ Out.name o = name item
      ∧ Out.primary_keys o = primary_keys item
      ∧ Out.foreign_keys o = foreign_keys item
      ∧ Out.schema o = schema_stmt item.
Proof.
  intros items. destruct (X10_one_record_per_key items) as [Hlen Hrec].
  split; [rewrite Hlen; by vm_compute|].
  apply (Hrec 0 "orders"). by vm_compute.
Defined.

(** X11. The names in the output of the pipeline are in strictly ascending
    order, and they are exactly the table names of the [CREATE TABLE]
    statements found in the text: an [ALTER TABLE] statement never adds an
    output record and never removes one. *)
Theorem X11_output_names (sql_text : string) :
  StronglySorted str_lt (Out.name <$> parse_sql sql_text)
  ∧ ∀ k, k ∈ Out.name <$> parse_sql sql_text
         ↔ ∃ m, m ∈ Re.finditer create_pattern sql_text
                ∧ Re.group "table" m = k.
Proof.
  rewrite parse_sql_eq, to_serializable_names
    by apply parse_constraints_keyed, extract_keyed.
  split; [apply sorted_strict, NoDup_keys|]. intros k.
  by rewrite elem_of_sorted, elem_of_keys, pipeline_is_Some.
Qed.

(** X12. In the output of the pipeline, [constraints] of a table is the
    sequence of the [ALTER TABLE] statements that name it, verbatim and in
    text order, joined by a newline and two spaces: stripping changes none
    of them.  It is the empty string exactly when no statement names the
    table. *)
Theorem X12_constraints_verbatim (sql_text : string) (o : Out.t) :
  o ∈ parse_sql sql_text →
  let stmts :=
    statements_for (Out.name o) (Re.finditer alter_pattern sql_text) in
  Out.constraints o = join (String newline "  ") stmts
  ∧ (Out.constraints o = EmptyString ↔ stmts = []).
Proof.
  rewrite parse_sql_eq, elem_of_to_serializable.
  intros (k & item & Hitem & ->). simpl.
  rewrite (parse_constraints_keyed _ _ (extract_keyed sql_text) _ _ Hitem).
  unfold constraints_joined.
  rewrite (pipeline_constraints_raw _ _ _ Hitem), strip_statements_for.
  destruct (statements_for _ _) as [|stmt stmts] eqn:E; [done|].
  split; [done|]. split; [|done]. intros Hj. exfalso.
  assert (stmt ∈ statements_for k (Re.finditer alter_pattern sql_text)) as Hin
    by (rewrite E; left).
  apply alter_statements_for in Hin as (kw & ws & schema & body & Hp & ->).
  by eapply join_nonempty, Hj; eapply statement_text_nonempty.
Qed.

Lemma X12_constraints_verbatim_witness :
  ∃ o,
    o ∈ parse_sql example_sql
    ∧ Out.name o = "orders"
    ∧ Out.constraints o
      = join (String newline "  ")
          (statements_for (Out.name o) (Re.finditer alter_pattern example_sql)).
Proof.
  assert (∃ o, parse_sql example_sql !! 0 = Some o ∧ Out.name o = "orders")
    as (o & Ho & Hname).
  { eexists. split; [vm_compute; reflexivity|reflexivity]. }
  exists o. apply list_elem_of_lookup_2 in Ho as Hin.
  split; [exact Hin|]. split; [exact Hname|].
  exact (proj1 (X12_constraints_verbatim example_sql o Hin)).
Defined.

(** X13. A record made by [extract_tables_and_ddl] has no primary key, no
    foreign key, no dependency and no constraint, and it leaves
    [parse_constraints] as it is exactly when no [ALTER TABLE] match of the
    text names its table.  Keys are read from the [ALTER TABLE] matches only,
    wherever in the text these are found. *)
Theorem X13_untouched_table (sql_text t : string) (item : TableRecord) :
  extract_tables_and_ddl sql_text !! t = Some item →
  constraints_raw item = [] ∧ primary_keys item = []
  ∧ foreign_keys item = [] ∧ dependencies item = ∅
  ∧ ((parse_constraints sql_text (extract_tables_and_ddl sql_text)).2 !! t
     = Some item
     ↔ statements_for t (Re.finditer alter_pattern sql_text) = []).
Proof.
  intros Hitem. rewrite parse_constraints_lookup, Hitem. simpl.
  apply extract_lookup in Hitem as (m & _ & _ & ->).
  split_and!; [done..|]. split.
  - intros [= H]. apply (f_equal constraints_raw) in H.
    by rewrite apply_statements_eq in H.
  - by intros ->.
Qed.

Lemma X13_untouched_table_witness :
  ∃ item,
    extract_tables_and_ddl inline_sql !! "t" = Some item
    ∧ (parse_constraints inline_sql (extract_tables_and_ddl inline_sql)).2 !! "t"
      = Some item
    ∧ primary_keys item = [] ∧ foreign_keys item = [].
Proof.
  eexists. split; [vm_compute; reflexivity|].
  split; [|split; reflexivity].
  refine (proj2 (proj2 (proj2 (proj2 (proj2
            (X13_untouched_table inline_sql "t" _ _))))) _);
    vm_compute; reflexivity.
Defined.

(** X14. The registry of [extract_tables_and_ddl], and with it the output of
    the pipeline, is empty exactly when no piece of the text is a well-formed
    [CREATE TABLE] statement: the words in any case, whitespace, a quoted
    schema, a dot, a quoted table name and a semicolon somewhere after. *)
Theorem X14_empty_output (sql_text : string) :
  let no_statement :=
    ¬ ∃ kw ws schema table body pre post,
        statement_parts "CREATE TABLE" kw ws schema table body
        ∧ sql_text = pre +:+ statement_text kw ws schema table body +:+ post in
  (extract_tables_and_ddl sql_text = ∅ ↔ no_statement)
  ∧ (parse_sql sql_text = [] ↔ no_statement).
Proof.
  intros no_statement.
  assert (Re.finditer create_pattern sql_text = [] ↔ no_statement) as Hfind
    by apply finditer_nil_iff.
  assert (∀ items : gmap string TableRecord,
            (∀ t, is_Some (items !! t)
                  ↔ ∃ m, m ∈ Re.finditer create_pattern sql_text
                         ∧ Re.group "table" m = t) →
            items = ∅ ↔ Re.finditer create_pattern sql_text = []) as Hmap.
  { intros items Hitems. split.
    - intros ->. destruct (Re.finditer _ _) as [|m ms] eqn:E; [done|].
      destruct (proj2 (Hitems (Re.group "table" m))) as [x Hx].
      { exists m. split; [left|done]. }
      by rewrite lookup_empty in Hx.
    - intros E. apply map_empty. intros t. apply eq_None_not_Some.
      rewrite Hitems, E. intros (m & Hm & _). by apply elem_of_nil in Hm. }
  split.
  - rewrite <- Hfind. apply Hmap, extract_is_Some.
  - rewrite parse_sql_eq, to_serializable_nil, <- Hfind.
    apply Hmap, pipeline_is_Some.
Qed.

(** X15. [column_list] reads a comma-separated list of columns back: when
    every column is written as its name, optionally between double quotes and
    blanks, and the name holds no comma and has neither blank nor double
    quote at its ends, the result is the list of the names, in order. *)
Theorem X15_column_list_names (cs : list Column) :
  cs ≠ [] → Forall column_ok cs →
  column_list (join "," (column_text <$> cs)) = col_name <$> cs.
Proof.
  intros Hne Hcs. unfold column_list.
  rewrite split_join.
  - rewrite <- list_fmap_compose. apply Forall_fmap_ext.
    eapply Forall_impl; [exact Hcs|]. intros c Hc. by apply strip_column_text.
  - by destruct cs.
  - apply Forall_fmap. eapply Forall_impl; [exact Hcs|].
    intros c Hc. by apply column_text_no_comma.
Qed.

Lemma X15_column_list_names_witness :
  example_columns ≠ [] ∧ Forall column_ok example_columns
  ∧ column_list (q "a" +:+ ", " +:+ q "b" +:+ " ,c") = ["a"; "b"; "c"].
Proof.
  assert (Forall column_ok example_columns) as Hcs.
  { repeat constructor. }
  split; [done|]. split; [exact Hcs|].
  exact (X15_column_list_names example_columns ltac:(done) Hcs).
Defined.

(** X16. The whole pipeline, entry by entry.  The record of a table comes
    from the last [CREATE TABLE] statement of that table and from all the
    [ALTER TABLE] statements that name it, in text order, wherever they
    stand: before the [CREATE TABLE] statement, after it, or between two
    [CREATE TABLE] statements of the same table.  There is no entry for a
    table that no [CREATE TABLE] statement names. *)
Theorem X16_pipeline_entry (sql_text t : string) :
  let stmts := statements_for t (Re.finditer alter_pattern sql_text) in
  let clauses := stmts ≫= Re.finditer foreign_key_pattern in
  (parse_constraints sql_text (extract_tables_and_ddl sql_text)).2 !! t
  = (λ m,
       {| name := t;
          schema_name := Re.group "schema" m;
          schema_stmt := Re.group "1" m;
          constraints_raw := stmts;
          primary_keys :=
            first_occurrences
              (filter (λ c, c ≠ EmptyString) (stmts ≫= primary_key_tokens));
          foreign_keys := foreign_key_of <$> clauses;
          dependencies := list_to_set (Re.group "ref_table" <$> clauses) |})
    <$> last (filter (λ m, Re.group "table" m = t)
                (Re.finditer create_pattern sql_text)).
Proof.
  intros stmts clauses. rewrite pipeline_entry.
  destruct (last _) as [m|] eqn:E; simpl; [|done]. f_equal.
  apply last_Some_elem_of, list_elem_of_filter in E as [Ht _].
  rewrite apply_statements_eq. simpl.
  by rewrite Ht, add_keys_nil, (left_id_L ∅ (∪)).
Qed.

